(** * requestpq: a priority queue for web requests, and its binary min-heap

    A shallow embedding of the Go packages [heap]
    (heap/array_min_heap.go) and [requestpq] (req_pq.go).

    Conventions of the embedding.
    - Go's [int] is a 64-bit signed integer.  Indices and lengths are
      modelled in [Z]; the index arithmetic of the heap ([k/2], [k*2],
      [k*2+1]) is only applied to indices bounded by the length of a slice,
      which is far below [2^62], so no wrap-around can occur there.  The
      [uint64] sequence counter of the queue does wrap and its wrap-around
      is written out.
    - A run-time panic (index out of range, failed type assertion) is the
      [None] of an outer [option]; every operation that indexes the slice
      lives in that error monad.  Go's [nil] results are the [None] of an
      inner [option].
    - Methods with a pointer receiver mutate the slice in place; here they
      return the new slice. *)

From Equations Require Import Equations.
From Equations.Prop Require Import Logic.
From stdpp Require Import base tactics option list numbers strings sorting.

Local Open Scope Z_scope.

(** ** Package heap *)
Module heap.
Section Defs.
Context {D : Type}.

(** Modelled from the spec: the declaration of [Item] with the [Order]
    field, which req_pq.go fills with the sequence counter, is not under
    src/ (array_min_heap.go there declares the timestamp variant, with
    [CreatedAt time.Time] in its place).  The tie-break field is the
    unsigned sequence number of section 3 of the specification; for the
    timestamp variant read [Order] as the instant of creation.

    An [Item] carries any data with a priority value.  [Data] is an
    [interface{}]: [None] is the nil interface. *)
Record Item : Type := mkItem {
  Priority : Z;
  Data : option D;
  Order : Z
}.

(** [ItemHeap] is [[]*Item]; index 0 holds a dummy item. *)
Local Abbreviation ItemHeap := (list Item).

(** [h[i]]: panics when [i] is negative or not below [len(h)]. *)
Definition index (h : ItemHeap) (i : Z) : option Item :=
  if decide (0 ≤ i) then h !! Z.to_nat i else None.

Definition NewHeap : ItemHeap :=
  [ {| Priority := 0; Data := None; Order := 0 |} ].

(** Heap size (n-1) instead of the real array size (n). *)
Definition Len (h : ItemHeap) : Z := Z.of_nat (length h) - 1.

Definition Empty (h : ItemHeap) : bool := bool_decide (Len h = 0).

(** The comparison made by [Less] once both items are read: priority
    first, and on a tie the tie-break field ([CreatedAt.Before] in the
    timestamp variant, a strict comparison as well). *)
Definition item_less (a b : Item) : bool :=
  if bool_decide (Priority a = Priority b)
  then bool_decide (Order a < Order b)
  else bool_decide (Priority a < Priority b).

Definition Less (h : ItemHeap) (i j : Z) : option bool :=
  a ← index h i; b ← index h j; Some (item_less a b).

(** [h[i], h[j] = h[j], h[i]]: both operands are read (and bounds-checked)
    before either is written. *)
Definition Swap (h : ItemHeap) (i j : Z) : option ItemHeap :=
  a ← index h i; b ← index h j;
  Some (<[Z.to_nat j := a]> (<[Z.to_nat i := b]> h)).

(** Go's integer division truncates towards zero.  The arithmetic is the
    exact one; the module [int64] below has the wrapped one, which agrees
    with it on every index below [2^62]. *)
Definition parent (k : Z) : Z := k `quot` 2.
Definition leftChild (k : Z) : Z := k * 2.
Definition rightChild (k : Z) : Z := k * 2 + 1.

Equations? up (h : ItemHeap) (j : Z) : option ItemHeap
  by wf (Z.to_nat j) lt :=
up h j with decide (j > 1) := {
  | right _ => Some h
  | left _ with Less h j (parent j) := {
    | None => None
    | Some false => Some h
    | Some true with Swap h (parent j) j := {
      | None => None
      | Some h' => up h' (parent j) } } }.
Proof. unfold parent. apply Z2Nat.inj_lt; [| lia |]; apply Z.quot_lt || apply Z.quot_pos; lia. Qed.

Equations? down (h : ItemHeap) (j : Z) : option ItemHeap
  by wf (Z.to_nat (Len h - j)) lt :=
down h j with decide (leftChild j > Len h) := {
  | left _ => Some h
  | right _ with inspect
      (if decide (rightChild j > Len h) then Some (leftChild j)
       else b ← Less h (leftChild j) (rightChild j);
            Some (if b : bool then leftChild j else rightChild j)) := {
    | exist _ None _ => None
    | exist _ (Some smallestChild) Hsc with inspect
        (if decide (smallestChild ≤ Len h) then Less h smallestChild j
         else Some false) := {
      | exist _ None _ => None
      | exist _ (Some false) _ => Some h
      | exist _ (Some true) Hlt with inspect (Swap h j smallestChild) := {
        | exist _ None _ => None
        | exist _ (Some h') Hsw => down h' smallestChild } } } }.
Proof.
  (* the swap keeps the length, the child lies below [j] and within the heap *)
  assert (Len h' = Len h ∧ 0 ≤ j) as [Hlen Hj].
  { unfold Swap, index in Hsw. destruct (decide (0 ≤ j)); [|done].
    destruct (h !! Z.to_nat j); [|done].
    destruct (decide (0 ≤ smallestChild)); [|done].
    destruct (h !! Z.to_nat smallestChild); [|done].
    simplify_eq/=. unfold Len. by rewrite !length_insert. }
  assert (smallestChild ≤ Len h ∧ smallestChild ≠ j) as [Hn Hne].
  { destruct (decide (smallestChild ≤ Len h)); [|done]. split; [done|].
    intros ->. unfold Less in Hlt. destruct (index h j) as [a|]; [|done].
    simplify_eq/=. unfold item_less in *.
    rewrite bool_decide_eq_true_2 in Hlt by done.
    apply bool_decide_eq_true_1 in Hlt. lia. }
  assert (smallestChild = leftChild j ∨ smallestChild = rightChild j) as Hc.
  { destruct (decide (rightChild j > Len h)); [simplify_eq; auto|].
    destruct (Less h (leftChild j) (rightChild j)) as [[]|]; simplify_eq/=; auto. }
  unfold leftChild, rightChild in *. lia.
Qed.

(** The argument of Push is an [interface{}]: a pointer to an item, or
    anything else (the nil interface, a value of another dynamic type).
    Slices hold items, so a nil pointer of type [*Item] has no
    representation, as an argument or as an element. *)
Inductive any : Type :=
| ItemPtr (item : Item)
| NotItemPtr.

(** Push: the type assertion of [x] to an Item pointer, which panics on
    anything else, then [append] and [up]. *)
Definition Push (h : ItemHeap) (x : any) : option ItemHeap :=
  match x with
  | NotItemPtr => None
  | ItemPtr item =>
      let h := h ++ [item] in
      up h (Len h)
  end.

(** Pop returns the removed item ([None] is Go's nil) and the new slice.
    [old[n] = nil] clears a slot of the backing array that lies beyond the
    re-sliced [old[0:n]], so it leaves no trace in the slice. *)
Definition Pop (h : ItemHeap) : option (option Item * ItemHeap) :=
  if Empty h then Some (None, h)
  else
    let n := Len h in
    h ← Swap h 1 n;
    let old := h in
    item ← index old n;
    let h := take (Z.to_nat n) old in
    h ← down h 1;
    Some (Some item, h).

(** Calls made by a single client of the heap, run in sequence; the
    results of the Pops are collected. *)
Inductive call : Type :=
| DoPush (x : Item)
| DoPop.

Fixpoint calls (cs : list call) (h : ItemHeap)
  : option (list (option Item) * ItemHeap) :=
  match cs with
  | [] => Some ([], h)
  | DoPush x :: cs => h ← Push h (ItemPtr x); calls cs h
  | DoPop :: cs =>
      '(r, h) ← Pop h; '(rs, h) ← calls cs h; Some (r :: rs, h)
  end.

Definition pushed (cs : list call) : list Item :=
  omap (λ c, match c with DoPush x => Some x | DoPop => None end) cs.

End Defs.
Arguments Item : clear implicits.
Arguments call : clear implicits.
Arguments any : clear implicits.
Arguments Push : simpl never.
Abbreviation ItemHeap D := (list (Item D)).
End heap.

Import heap.

(** ** Package requestpq *)
Module requestpq.
Section Defs.
Context {D : Type}.

Definition MaxUint64 : Z := 2 ^ 64 - 1.

(** [Queue] is a thread-safe priority queue.  Every method holds [lock]
    from its first statement to its return ([defer q.lock.Unlock()]), so
    each call is one atomic transition of the pair below; the lock itself
    only appears in the model of [DecorateChannel].  [count] is a
    [uint64]. *)
Record Queue : Type := mkQueue {
  heap : ItemHeap D;
  count : Z
}.

Definition NewQueue : Queue := {| heap := NewHeap; count := 0 |}.

(** The constructor of the test file, with a chosen counter. *)
Definition mockNewQueue (initCount : Z) : Queue :=
  {| heap := NewHeap; count := initCount |}.

(** [n] calls of Pop, stopping at the first nil. *)
Fixpoint pop_all (n : nat) (h : ItemHeap D)
  : option (list (Item D) * ItemHeap D) :=
  match n with
  | O => Some ([], h)
  | S n =>
      '(item, h) ← Pop h;
      match item with
      | None => Some ([], h)
      | Some x => '(l, h) ← pop_all n h; Some (x :: l, h)
      end
  end.

Definition push_all (l : list (Item D)) (h : ItemHeap D)
  : option (ItemHeap D) :=
  foldl (λ acc x, h ← acc; Push h (ItemPtr x)) (Some h) l.

Definition renumber (l : list (Item D)) : list (Item D) :=
  imap (λ k x, {| Priority := Priority x; Data := Data x;
                  Order := Z.of_nat k |}) l.

(** Modelled from the spec: the method [ReOrder] of the heap, which
    [Enqueue] calls when the counter is exhausted, is not under src/.
    Section 4.2 of the specification: the renumbering pass "extracts the
    current heap order and reassigns sequence numbers 0..n-1 in dequeue
    order before continuing".  The items are taken out in dequeue order,
    numbered, and put back; the counter handed back to [Enqueue] is the
    number of items, on which the specification is silent and on which
    none of the results below depends. *)
Definition ReOrder (h : ItemHeap D) : option (Z * ItemHeap D) :=
  let n := Len h in
  '(l, h) ← pop_all (Z.to_nat n) h;
  h ← push_all (renumber l) h;
  Some (n `mod` 2 ^ 64, h).

(** Enqueue puts the data into the priority queue with a sequence
    number; [q.count++] wraps around at [2^64]. *)
Definition Enqueue (q : Queue) (data : option D) (priority : Z)
  : option Queue :=
  '(count, h) ← (if decide (count q = MaxUint64) then ReOrder (heap q)
                 else Some (count q, heap q));
  let count := (count + 1) `mod` 2 ^ 64 in
  let item := {| Priority := priority; Data := data; Order := count |} in
  h ← Push h (ItemPtr item);
  Some {| heap := h; count := count |}.

(** The error value of [errors.New]. *)
Definition error : Type := string.

(** Dequeue gets and removes the data with highest priority; it returns
    [(interface{}, error)], nil being [None] in both components. *)
Definition Dequeue (q : Queue)
  : option ((option D * option error) * Queue) :=
  '(item, h) ← Pop (heap q);
  let q := {| heap := h; count := count q |} in
  match item with
  | None => Some ((None, Some "pop an empty queue"%string), q)
  | Some item => Some ((Data item, None), q)
  end.

Definition Len (q : Queue) : Z := heap.Len (heap q).

Definition Empty (q : Queue) : bool := heap.Empty (heap q).

(** Calls made by a single client of the queue, run in sequence. *)
Inductive op : Type :=
| Enq (data : option D) (priority : Z)
| Deq.

Fixpoint run (ops : list op) (q : Queue)
  : option (list (option D * option error) * Queue) :=
  match ops with
  | [] => Some ([], q)
  | Enq data priority :: ops => q ← Enqueue q data priority; run ops q
  | Deq :: ops =>
      '(r, q) ← Dequeue q; '(rs, q) ← run ops q; Some (r :: rs, q)
  end.

(** The positions (counted from [t]) of the calls of [ops] at which
    Enqueue finds the counter exhausted and renumbers. *)
Fixpoint renumbered_at (t : nat) (ops : list op) (q : Queue) : list nat :=
  match ops with
  | [] => []
  | Enq data priority :: ops =>
      (if decide (count q = MaxUint64) then [t] else []) ++
      match Enqueue q data priority with
      | Some q => renumbered_at (S t) ops q
      | None => []
      end
  | Deq :: ops =>
      match Dequeue q with
      | Some (_, q) => renumbered_at (S t) ops q
      | None => []
      end
  end.

End Defs.
Arguments Queue : clear implicits.
Arguments op : clear implicits.
End requestpq.


(** ** The steps of Pop in the words of the specification *)
Section pop_steps.
Context {D : Type}.
Implicit Types (h : ItemHeap D) (j : Z).

(** The children of [j] that exist. *)
Definition children h j : list Z :=
  filter (λ c, c ≤ Len h) [leftChild j; rightChild j].

(** "compare its two children (if only one exists, use it; if none,
    stop)": the child chosen, if there is one. *)
Definition smaller_of h (cs : list Z) : option (option Z) :=
  match cs with
  | [] => Some None
  | [c] => Some (Some c)
  | l :: r :: _ => lt ← Less h l r; Some (Some (if lt : bool then l else r))
  end.

(** Section 4.1 to the letter: "at each step compare its two children
    [...], swap with the smaller, repeat"; at most [n] rounds. *)
Fixpoint sift_down_words (n : nat) h j : option (ItemHeap D) :=
  match n with
  | O => Some h
  | S n =>
      c ← smaller_of h (children h j);
      match c with
      | None => Some h
      | Some c => h ← Swap h j c; sift_down_words n h c
      end
  end.

(** "swaps the root with the last element, removes the last element (old
    root), then sifts the new root downward [...]. Returns the removed
    (original root) item." *)
Definition Pop_words h : option (option (Item D) * ItemHeap D) :=
  if Empty h then Some (None, h)
  else
    root ← index h 1;
    h ← Swap h 1 (Len h);
    let h := removelast h in
    h ← sift_down_words (length h) h 1;
    Some (Some root, h).

(** The same steps, the swap being made only when the smaller child
    compares less than the item that sinks, and the sifting stopping
    otherwise. *)
Fixpoint sift_down_amended (n : nat) h j : option (ItemHeap D) :=
  match n with
  | O => Some h
  | S n =>
      c ← smaller_of h (children h j);
      match c with
      | None => Some h
      | Some c =>
          lt ← Less h c j;
          if lt : bool then h ← Swap h j c; sift_down_amended n h c
          else Some h
      end
  end.

Definition Pop_amended h : option (option (Item D) * ItemHeap D) :=
  if Empty h then Some (None, h)
  else
    root ← index h 1;
    h ← Swap h 1 (Len h);
    let h := removelast h in
    h ← sift_down_amended (length h) h 1;
    Some (Some root, h).

End pop_steps.

(** ** DecorateChannel: the two goroutines as a transition system

    [DecorateChannel] starts an ingestion goroutine and an emission
    goroutine that share the queue, its lock and a condition variable on
    that lock.  A state holds the queue, the lock, the program point of
    each goroutine, the tasks still to arrive on [inChan] and the payloads
    sent on [outChan]; [step] runs one goroutine up to its next program
    point and is [None] when that goroutine cannot move (it waits for the
    lock, for a task or for a signal, or it has panicked).  A receiver is
    taken to be ready on [outChan], so a send never blocks here. *)
Module channel.
Section Defs.
Context {D : Type}.

(** Task defines the input format of decorated channel. *)
Record Task : Type := mkTask {
  Data : option D;
  Priority : Z
}.

Inductive goroutine : Type := Ingest | Emit.

Inductive ingest_pc : Type :=
| IRange                (* for task := range inChan *)
| IEnqueue (task : Task)(* pq.Enqueue(task.Data, task.Priority) *)
| ISignal.              (* cond.Signal() *)

Inductive emit_pc : Type :=
| ELock                 (* pq.lock.Lock() *)
| ECheck                (* if pq.heap.Empty() *)
| EWait                 (* parked inside cond.Wait(), lock released *)
| EWoken                (* signalled: cond.Wait() takes the lock again *)
| EPop                  (* item := pq.heap.Pop(); if item == nil *)
| ESend (data : option D)   (* outChan <- data *)
| EPanic.               (* panic("pop an empty queue") *)

Record State : Type := mkState {
  pq : requestpq.Queue D;
  locked : bool;
  inChan : list Task;
  ingest : ingest_pc;
  emit : emit_pc;
  outChan : list (option D)
}.

Definition start (tasks : list Task) : State :=
  {| pq := requestpq.NewQueue; locked := false; inChan := tasks;
     ingest := IRange; emit := ELock; outChan := [] |}.

Definition step (g : goroutine) (st : State) : option State :=
  match g with
  | Ingest =>
      match ingest st with
      | IRange =>
          match inChan st with
          | task :: tasks =>
              Some {| pq := pq st; locked := locked st; inChan := tasks;
                      ingest := IEnqueue task; emit := emit st;
                      outChan := outChan st |}
          | [] => None
          end
      | IEnqueue task =>
          (* Enqueue locks, pushes and unlocks *)
          if locked st then None
          else
            q ← requestpq.Enqueue (pq st) (Data task) (Priority task);
            Some {| pq := q; locked := false; inChan := inChan st;
                    ingest := ISignal; emit := emit st;
                    outChan := outChan st |}
      | ISignal =>
          (* wakes the goroutine waiting on cond, if there is one *)
          Some {| pq := pq st; locked := locked st; inChan := inChan st;
                  ingest := IRange;
                  emit := match emit st with EWait => EWoken | pc => pc end;
                  outChan := outChan st |}
      end
  | Emit =>
      match emit st with
      | ELock =>
          if locked st then None
          else Some {| pq := pq st; locked := true; inChan := inChan st;
                       ingest := ingest st; emit := ECheck;
                       outChan := outChan st |}
      | ECheck =>
          if heap.Empty (requestpq.heap (pq st))
          then (* cond.Wait(): unlock and park *)
               Some {| pq := pq st; locked := false; inChan := inChan st;
                       ingest := ingest st; emit := EWait;
                       outChan := outChan st |}
          else Some {| pq := pq st; locked := locked st; inChan := inChan st;
                       ingest := ingest st; emit := EPop;
                       outChan := outChan st |}
      | EWait => None
      | EWoken =>
          (* cond.Wait() returns with the lock held; the emptiness of the
             queue is not tested again *)
          if locked st then None
          else Some {| pq := pq st; locked := true; inChan := inChan st;
                       ingest := ingest st; emit := EPop;
                       outChan := outChan st |}
      | EPop =>
          '(item, h) ← heap.Pop (requestpq.heap (pq st));
          let q := {| requestpq.heap := h;
                      requestpq.count := requestpq.count (pq st) |} in
          match item with
          | None =>
              Some {| pq := q; locked := locked st; inChan := inChan st;
                      ingest := ingest st; emit := EPanic;
                      outChan := outChan st |}
          | Some item =>
              (* data := item.Data; pq.lock.Unlock() *)
              Some {| pq := q; locked := false; inChan := inChan st;
                      ingest := ingest st; emit := ESend (heap.Data item);
                      outChan := outChan st |}
          end
      | ESend data =>
          Some {| pq := pq st; locked := locked st; inChan := inChan st;
                  ingest := ingest st; emit := ELock;
                  outChan := outChan st ++ [data] |}
      | EPanic => None
      end
  end.

(** An execution under a schedule: each goroutine named must be able to
    move when its turn comes. *)
Fixpoint exec (schedule : list goroutine) (st : State) : option State :=
  match schedule with
  | [] => Some st
  | g :: schedule => st ← step g st; exec schedule st
  end.

End Defs.
Arguments Task : clear implicits.
Arguments State : clear implicits.
End channel.

(** * Properties of package heap *)

(** ** The comparator as an order on (priority, tie-break) keys *)
Section item_order.
Context {D : Type}.
Implicit Types a b : Item D.

Definition item_le a b : Prop :=
  Priority a < Priority b ∨ (Priority a = Priority b ∧ Order a ≤ Order b).
Definition item_lt a b : Prop :=
  Priority a < Priority b ∨ (Priority a = Priority b ∧ Order a < Order b).

Lemma item_less_true a b : item_less a b = true ↔ item_lt a b.
Proof.
  unfold item_less, item_lt. repeat case_bool_decide; split; intros; try done; lia.
Qed.

Lemma item_less_false a b : item_less a b = false ↔ item_le b a.
Proof.
  unfold item_less, item_le. repeat case_bool_decide; split; intros; try done; lia.
Qed.

End item_order.

Ltac item_order :=
  repeat match goal with
  | H : item_less _ _ = true |- _ => apply item_less_true in H
  | H : item_less _ _ = false |- _ => apply item_less_false in H
  | |- item_less _ _ = true => apply item_less_true
  | |- item_less _ _ = false => apply item_less_false
  end;
  unfold item_le, item_lt in *; lia.

Ltac zlia :=
  unfold parent, leftChild, rightChild in *;
  Z.to_euclidean_division_equations; lia.

Section heap_facts.
Context {D : Type}.
Implicit Types (h : ItemHeap D) (a b x y z : Item D) (i j k c n : Z).

Lemma item_le_refl a : item_le a a.
Proof. item_order. Qed.
Lemma item_le_trans a b x : item_le a b → item_le b x → item_le a x.
Proof. intros. item_order. Qed.
Lemma item_le_total a b : item_le a b ∨ item_le b a.
Proof. item_order. Qed.
Lemma item_lt_le a b : item_lt a b → item_le a b.
Proof. intros. item_order. Qed.
Lemma item_lt_irrefl a : ¬ item_lt a a.
Proof. intros ?. item_order. Qed.
Lemma item_lt_not_le a b : item_lt a b → ¬ item_le b a.
Proof. intros ??. item_order. Qed.


(** ** Indexing and swapping *)
Lemma index_Some h i a :
  index h i = Some a ↔ 0 ≤ i ∧ h !! Z.to_nat i = Some a.
Proof. unfold index. case_decide; intuition congruence. Qed.

Lemma index_range h i a : index h i = Some a → 0 ≤ i ≤ Len h.
Proof.
  intros [? Hl%lookup_lt_Some]%index_Some. unfold Len. lia.
Qed.

Lemma index_in_range h i : 0 ≤ i ≤ Len h → is_Some (index h i).
Proof.
  intros Hi. unfold index, Len in *. rewrite decide_True by lia.
  apply lookup_lt_is_Some. lia.
Qed.

Lemma index_elem_of h i a : index h i = Some a → a ∈ h.
Proof. intros [_ ?]%index_Some. by eapply list_elem_of_lookup_2. Qed.

Lemma Less_Some h i j (r : bool) :
  Less h i j = Some r ↔
  ∃ a b, index h i = Some a ∧ index h j = Some b ∧ item_less a b = r.
Proof.
  unfold Less. destruct (index h i) as [a|], (index h j) as [b|]; simpl;
    (split; [intros [= <-]; by eexists _, _|intros (? & ? & ? & ? & ?)]);
    by simplify_eq.
Qed.

Lemma Swap_Some h i j h' :
  Swap h i j = Some h' ↔
  ∃ a b, index h i = Some a ∧ index h j = Some b ∧
         h' = <[Z.to_nat j := a]> (<[Z.to_nat i := b]> h).
Proof.
  unfold Swap. destruct (index h i) as [a|], (index h j) as [b|]; simpl;
    (split; [intros [= <-]; by eexists _, _|intros (? & ? & ? & ? & ?)]);
    by simplify_eq.
Qed.

Lemma Swap_in_range h i j :
  0 ≤ i ≤ Len h → 0 ≤ j ≤ Len h → is_Some (Swap h i j).
Proof.
  intros [a Ha]%index_in_range [b Hb]%index_in_range.
  unfold Swap. rewrite Ha, Hb. by eexists.
Qed.

Lemma Swap_Len h i j h' : Swap h i j = Some h' → Len h' = Len h.
Proof.
  intros (a & b & _ & _ & ->)%Swap_Some. unfold Len.
  by rewrite !length_insert.
Qed.

Lemma Swap_perm h i j h' : Swap h i j = Some h' → h' ≡ₚ h.
Proof.
  intros (a & b & [_ Ha]%index_Some & [_ Hb]%index_Some & ->)%Swap_Some.
  by apply Permutation_insert_swap.
Qed.

(** After the swap, [i] holds what [j] held and conversely; every other
    slot is untouched. *)
Lemma index_Swap h i j h' k :
  Swap h i j = Some h' →
  index h' k =
    if decide (k = i) then index h j
    else if decide (k = j) then index h i else index h k.
Proof.
  intros (a & b & Ha & Hb & ->)%Swap_Some.
  pose proof (index_range _ _ _ Ha). pose proof (index_range _ _ _ Hb).
  apply index_Some in Ha as [? Ha]. apply index_Some in Hb as [? Hb].
  pose proof (lookup_lt_Some _ _ _ Ha). pose proof (lookup_lt_Some _ _ _ Hb).
  unfold index. destruct (decide (0 ≤ k)); [|repeat case_decide; (done || lia)].
  destruct (decide (k = j)) as [->|];
    [rewrite list_lookup_insert_eq by (rewrite length_insert; lia)
    |rewrite list_lookup_insert_ne by lia;
     destruct (decide (k = i)) as [->|];
     [rewrite list_lookup_insert_eq by lia
     |rewrite list_lookup_insert_ne by lia]];
    repeat case_decide; (lia || congruence).
Qed.

(** ** The recursion equations of [up] and [down], as the source reads *)
Lemma up_unfold h j :
  up h j =
    let i := parent j in
    if decide (j > 1) then
      lt ← Less h j i;
      if lt : bool then h' ← Swap h i j; up h' i else Some h
    else Some h.
Proof.
  simp up. destruct (decide (j > 1)); simpl; [|done].
  destruct (Less h j (parent j)) as [[]|]; simpl; [|done..].
  by destruct (Swap h (parent j) j).
Qed.

Lemma down_unfold h j :
  down h j =
    let n := Len h in
    let l := leftChild j in
    let r := rightChild j in
    if decide (l > n) then Some h
    else
      smallestChild ←
        (if decide (r > n) then Some l
         else lt ← Less h l r; Some (if lt : bool then l else r));
      lt ← (if decide (smallestChild ≤ n) then Less h smallestChild j
            else Some false);
      if lt : bool then h' ← Swap h j smallestChild; down h' smallestChild
      else Some h.
Proof.
  cbv zeta. funelim (down h j); clear Heqcall.
  1: by rewrite decide_True by done.
  all: rewrite decide_False by done.
  all: repeat match goal with
       | H : _ = Some _ |- _ => rewrite H; simpl
       | H : _ = None |- _ => rewrite H; simpl
       end; done.
Qed.

(** ** The heap-order invariant *)

(** The invariant, stated with the comparator of the source as the test
    helper [verify] does: no element compares less than its parent. *)
Definition heap_ok h : Prop :=
  ∀ i, 2 ≤ i ≤ Len h → Less h i (parent i) = Some false.

Definition ordered_at h k : Prop :=
  ∀ x y, index h k = Some x → index h (parent k) = Some y → item_le y x.

Lemma heap_ok_alt h : heap_ok h ↔ ∀ k, 2 ≤ k → ordered_at h k.
Proof.
  split.
  - intros Hok k Hk x y Hx Hy. pose proof (index_range _ _ _ Hx).
    destruct (proj1 (Less_Some _ _ _ _) (Hok k ltac:(lia)))
      as (x' & y' & ? & ? & ?). simplify_eq. by apply item_less_false.
  - intros Hok i Hi.
    destruct (index_in_range h i) as [x Hx]; [lia|].
    destruct (index_in_range h (parent i)) as [y Hy]; [zlia|].
    apply Less_Some. exists x, y. split_and!; [done..|].
    apply item_less_false. eapply (Hok i); [lia|done..].
Qed.

(** The invariant with one possible fault, as [up] meets it: every slot
    but [j] is in order with its parent, and the children of [j] are in
    order with the parent of [j]. *)
Definition up_inv h j : Prop :=
  (∀ k, 2 ≤ k → k ≠ j → ordered_at h k) ∧
  (2 ≤ j → ∀ c x z, parent c = j →
     index h c = Some x → index h (parent j) = Some z → item_le z x).

(** The same for [down]: the children of [j] may be out of order with [j],
    but are in order with the parent of [j]. *)
Definition down_inv h j : Prop :=
  (∀ k, 2 ≤ k → parent k ≠ j → ordered_at h k) ∧
  (2 ≤ j → ∀ c x z, parent c = j →
     index h c = Some x → index h (parent j) = Some z → item_le z x).

Lemma up_inv_done h j :
  up_inv h j → (j > 1 → ordered_at h j) → ∀ k, 2 ≤ k → ordered_at h k.
Proof.
  intros [H1 _] Hj k Hk. destruct (decide (k = j)) as [->|]; [|by apply H1].
  apply Hj. lia.
Qed.

Lemma up_inv_swap h j a b h1 :
  j > 1 → index h j = Some a → index h (parent j) = Some b →
  item_less a b = true → Swap h (parent j) j = Some h1 →
  up_inv h j → up_inv h1 (parent j).
Proof.
  intros Hj Ha Hb Hlt Hsw [H1 H2].
  pose proof (index_range _ _ _ Ha).
  split.
  - intros k Hk Hki x y Hx Hy.
    rewrite (index_Swap _ _ _ _ _ Hsw) in Hx.
    rewrite (index_Swap _ _ _ _ _ Hsw) in Hy.
    rewrite decide_False in Hx by done.
    destruct (decide (k = j)) as [->|Hkj].
    + rewrite decide_True in Hy by done. simplify_eq. item_order.
    + destruct (decide (parent k = parent j)) as [Hp|].
      * simplify_eq. specialize (H1 k Hk Hkj x b Hx). rewrite Hp in H1.
        specialize (H1 Hb). item_order.
      * destruct (decide (parent k = j)) as [Hp|]; [|by eapply H1].
        simplify_eq. eapply (H2 ltac:(lia) k); done.
  - intros Hi c x z Hc Hx Hz.
    pose proof (index_range _ _ _ Hx) as Hr.
    rewrite (index_Swap _ _ _ _ _ Hsw) in Hx.
    rewrite (index_Swap _ _ _ _ _ Hsw) in Hz.
    rewrite decide_False in Hx by zlia.
    rewrite !decide_False in Hz by zlia.
    assert (item_le z b) by (eapply (H1 (parent j)); [lia|zlia|done..]).
    destruct (decide (c = j)) as [->|Hcj]; [by simplify_eq|].
    specialize (H1 c ltac:(zlia) Hcj x b Hx). rewrite Hc in H1.
    specialize (H1 Hb). item_order.
Qed.

Lemma up_spec h j :
  j ≤ Len h →
  ∃ h', up h j = Some h' ∧ h' ≡ₚ h ∧ index h' 0 = index h 0 ∧
        (up_inv h j → ∀ k, 2 ≤ k → ordered_at h' k).
Proof.
  remember (Z.to_nat j) as m eqn:Hm. revert h j Hm.
  induction m as [m IH] using lt_wf_ind. intros h j -> Hj.
  rewrite up_unfold; cbv zeta.
  destruct (decide (j > 1)) as [Hj1|];
    [|exists h; split_and!; [done..|]; intros; eapply up_inv_done; [done|lia|done]].
  destruct (index_in_range h j) as [a Ha]; [lia|].
  destruct (index_in_range h (parent j)) as [b Hb]; [zlia|].
  unfold Less at 1. rewrite Ha, Hb; simpl.
  destruct (item_less a b) eqn:Hlt.
  - destruct (Swap_in_range h (parent j) j) as [h1 Hsw]; [zlia|lia|].
    rewrite Hsw; simpl.
    destruct (IH (Z.to_nat (parent j)) ltac:(zlia) h1 (parent j) eq_refl)
      as (h' & Hup & Hperm & H0 & Hinv).
    { rewrite (Swap_Len _ _ _ _ Hsw). zlia. }
    exists h'. split_and!; [done| |..].
    + by rewrite Hperm, (Swap_perm _ _ _ _ Hsw).
    + rewrite H0, (index_Swap _ _ _ _ _ Hsw). by rewrite !decide_False by zlia.
    + intros Hi. apply Hinv. by eapply up_inv_swap.
  - exists h. split_and!; [done..|]. intros Hi. eapply up_inv_done; [done|].
    intros _ x y Hx Hy. simplify_eq. item_order.
Qed.

(** The child that [down] picks, and what makes it the smaller one. *)
Definition smaller_child h j sc s : Prop :=
  (sc = leftChild j ∨ sc = rightChild j) ∧ sc ≤ Len h ∧
  index h sc = Some s ∧
  ∀ c x, parent c = j → index h c = Some x → item_le s x.

Lemma smaller_child_pick h j :
  1 ≤ j → leftChild j ≤ Len h →
  ∃ sc s,
    (if decide (rightChild j > Len h) then Some (leftChild j)
     else lt ← Less h (leftChild j) (rightChild j);
          Some (if lt : bool then leftChild j else rightChild j)) = Some sc ∧
    smaller_child h j sc s.
Proof.
  intros Hj Hl.
  destruct (index_in_range h (leftChild j)) as [xl Hxl]; [zlia|].
  destruct (decide (rightChild j > Len h)).
  - exists (leftChild j), xl. split; [done|]. split_and!; [auto|done..|].
    intros c x Hc Hx. pose proof (index_range _ _ _ Hx).
    assert (c = leftChild j) as -> by zlia. simplify_eq. apply item_le_refl.
  - destruct (index_in_range h (rightChild j)) as [xr Hxr]; [zlia|].
    unfold Less. rewrite Hxl, Hxr; simpl.
    destruct (item_less xl xr) eqn:Hlt.
    + exists (leftChild j), xl. split; [done|]. split_and!; [auto|done..|].
      intros c x Hc Hx. pose proof (index_range _ _ _ Hx).
      assert (c = leftChild j ∨ c = rightChild j) as [-> | ->] by zlia;
        simplify_eq; item_order.
    + exists (rightChild j), xr. split; [done|]. split_and!; [auto|lia|done|].
      intros c x Hc Hx. pose proof (index_range _ _ _ Hx).
      assert (c = leftChild j ∨ c = rightChild j) as [-> | ->] by zlia;
        simplify_eq; item_order.
Qed.

Lemma down_inv_done h j a :
  1 ≤ j → index h j = Some a →
  (∀ c x, parent c = j → index h c = Some x → item_le a x) →
  down_inv h j → ∀ k, 2 ≤ k → ordered_at h k.
Proof.
  intros Hj Ha Hch [H1 _] k Hk.
  destruct (decide (parent k = j)) as [<-|]; [|by apply H1].
  intros x y Hx Hy. simplify_eq. by eapply Hch.
Qed.

Lemma down_inv_swap h j a sc s h1 :
  1 ≤ j → index h j = Some a → smaller_child h j sc s →
  item_less s a = true → Swap h j sc = Some h1 →
  down_inv h j → down_inv h1 sc.
Proof.
  intros Hj Ha (Hsc & Hn & Hs & Hmin) Hlt Hsw [H1 H2].
  assert (parent sc = j ∧ sc > j) as [Hpsc Hscj] by (destruct Hsc; zlia).
  split.
  - intros k Hk Hpk x y Hx Hy.
    pose proof (index_range _ _ _ Hx) as Hr.
    rewrite (index_Swap _ _ _ _ _ Hsw) in Hx.
    rewrite (index_Swap _ _ _ _ _ Hsw) in Hy.
    rewrite (decide_False (P := parent k = sc)) in Hy by done.
    destruct (decide (k = sc)) as [->|Hksc].
    + rewrite decide_False in Hx by lia.
      rewrite decide_True in Hy by done. simplify_eq. item_order.
    + destruct (decide (k = j)) as [->|Hkj].
      * rewrite decide_False in Hy by zlia. simplify_eq.
        eapply (H2 ltac:(lia) sc); done.
      * destruct (decide (parent k = j)) as [Hp|]; [|by eapply H1].
        simplify_eq. by eapply Hmin.
  - intros _ c x z Hc Hx Hz.
    pose proof (index_range _ _ _ Hx) as Hr.
    rewrite (index_Swap _ _ _ _ _ Hsw) in Hx.
    rewrite (index_Swap _ _ _ _ _ Hsw) in Hz.
    rewrite Hpsc, decide_True in Hz by done.
    rewrite !decide_False in Hx by zlia. simplify_eq.
    eapply (H1 c); [zlia|zlia|done..].
Qed.

Lemma down_spec h j :
  1 ≤ j →
  ∃ h', down h j = Some h' ∧ h' ≡ₚ h ∧ index h' 0 = index h 0 ∧
        (down_inv h j → ∀ k, 2 ≤ k → ordered_at h' k).
Proof.
  remember (Z.to_nat (Len h - j)) as m eqn:Hm. revert h j Hm.
  induction m as [m IH] using lt_wf_ind. intros h j -> Hj.
  rewrite down_unfold; cbv zeta.
  destruct (decide (leftChild j > Len h)) as [Hl|Hl].
  { exists h. split_and!; [done..|]. intros [H1 _] k Hk.
    destruct (decide (parent k = j)); [|by apply H1].
    intros x y Hx Hy. pose proof (index_range _ _ _ Hx). zlia. }
  destruct (smaller_child_pick h j) as (sc & s & -> & Hsm); [lia..|]; simpl.
  pose proof Hsm as (Hsc & Hn & Hs & Hmin).
  destruct (index_in_range h j) as [a Ha]; [zlia|].
  rewrite decide_True by done. unfold Less. rewrite Hs, Ha; simpl.
  destruct (item_less s a) eqn:Hlt.
  - destruct (Swap_in_range h j sc) as [h1 Hsw]; [zlia|zlia|].
    rewrite Hsw; simpl. pose proof (Swap_Len _ _ _ _ Hsw) as Hlen.
    destruct (IH (Z.to_nat (Len h1 - sc)) ltac:(destruct Hsc; zlia)
                 h1 sc eq_refl ltac:(destruct Hsc; zlia))
      as (h' & Hdown & Hperm & H0 & Hinv).
    exists h'. split_and!; [done| |..].
    + by rewrite Hperm, (Swap_perm _ _ _ _ Hsw).
    + rewrite H0, (index_Swap _ _ _ _ _ Hsw).
      by rewrite !decide_False by (destruct Hsc; zlia).
    + intros Hi. apply Hinv. by eapply down_inv_swap.
  - exists h. split_and!; [done..|]. intros Hi.
    eapply down_inv_done; [done..| |done].
    intros c x Hc Hx. specialize (Hmin c x Hc Hx). item_order.
Qed.

(** The root is a minimum of an ordered heap. *)
Lemma root_min h x :
  (∀ k, 2 ≤ k → ordered_at h k) → index h 1 = Some x →
  ∀ k y, 1 ≤ k → index h k = Some y → item_le x y.
Proof.
  intros Hok Hx k. remember (Z.to_nat k) as m eqn:Hm. revert k Hm.
  induction m as [m IH] using lt_wf_ind. intros k -> y Hk Hy.
  destruct (decide (k = 1)) as [->|]; [simplify_eq; apply item_le_refl|].
  pose proof (index_range _ _ _ Hy).
  destruct (index_in_range h (parent k)) as [p Hp]; [zlia|].
  eapply item_le_trans.
  - eapply (IH (Z.to_nat (parent k))); [zlia|done|zlia|done].
  - eapply (Hok k); [lia|done..].
Qed.


Lemma index_app h x k :
  index (h ++ [x]) k =
    if decide (k = Len h + 1) then Some x else index h k.
Proof.
  unfold index, Len. destruct (decide (0 ≤ k)); [|by rewrite decide_False by lia].
  case_decide as Hk.
  - rewrite lookup_app_r by lia.
    by replace (Z.to_nat k - length h)%nat with 0%nat by lia.
  - destruct (decide (k < Z.of_nat (length h))).
    + by rewrite lookup_app_l by lia.
    + rewrite !lookup_ge_None_2; [done|lia|]. rewrite length_app; simpl. lia.
Qed.

Lemma index_take h n k :
  0 ≤ n → index (take (Z.to_nat n) h) k = if decide (k < n) then index h k else None.
Proof.
  intros Hn. unfold index. destruct (decide (0 ≤ k)); [|by case_decide].
  case_decide.
  - by rewrite lookup_take_lt by lia.
  - by rewrite lookup_take_ge by lia.
Qed.

Lemma Push_spec h x :
  0 ≤ Len h →
  ∃ h', Push h (ItemPtr x) = Some h' ∧ h' ≡ₚ h ++ [x] ∧
        index h' 0 = index h 0 ∧ (heap_ok h → heap_ok h').
Proof.
  intros Hwf. unfold Push; cbv zeta.
  destruct (up_spec (h ++ [x]) (Len (h ++ [x]))) as (h' & -> & Hp & H0 & Hinv);
    [done|].
  assert (Len (h ++ [x]) = Len h + 1) as Hlen
    by (unfold Len; rewrite length_app; simpl; lia).
  exists h'. split_and!; [done..| |].
  { rewrite H0, index_app. by rewrite decide_False by lia. }
  rewrite !heap_ok_alt. intros Hok. apply Hinv. rewrite Hlen. split.
  - intros k Hk Hne a b. rewrite !index_app, decide_False by done.
    intros Ha. pose proof (index_range _ _ _ Ha).
    rewrite decide_False by zlia. by apply Hok.
  - intros _ c a b Hc. rewrite index_app. intros Ha.
    case_decide; [zlia|]. pose proof (index_range _ _ _ Ha). zlia.
Qed.

Lemma Pop_empty h : Len h = 0 → Pop h = Some (None, h).
Proof. intros Hl. unfold Pop, Empty. by rewrite bool_decide_eq_true_2. Qed.

Lemma Pop_spec h :
  0 < Len h →
  ∃ x h', Pop h = Some (Some x, h') ∧ index h 1 = Some x ∧
          h ≡ₚ h' ++ [x] ∧ index h' 0 = index h 0 ∧
          (heap_ok h → heap_ok h' ∧
             ∀ k y, 1 ≤ k → index h k = Some y → item_le x y).
Proof.
  intros Hn. unfold Pop, Empty. rewrite bool_decide_eq_false_2 by lia.
  cbv zeta.
  destruct (Swap_in_range h 1 (Len h)) as [old Hsw]; [lia..|].
  rewrite Hsw; simpl.
  destruct (index_in_range h 1) as [x Hx]; [lia|].
  assert (index old (Len h) = Some x) as Hold.
  { rewrite (index_Swap _ _ _ _ _ Hsw). case_decide; [congruence|].
    by rewrite decide_True. }
  rewrite Hold; simpl.
  destruct (down_spec (take (Z.to_nat (Len h)) old) 1)
    as (h' & -> & Hp & H0 & Hinv); [done|]; simpl.
  assert (old = take (Z.to_nat (Len h)) old ++ [x]) as Hsplit.
  { rewrite <-(take_drop (Z.to_nat (Len h)) old) at 1. f_equal.
    apply index_Some in Hold as [_ Hold].
    pose proof (Swap_Len _ _ _ _ Hsw) as Hl. unfold Len in Hl.
    rewrite (drop_S _ _ _ Hold), drop_ge; [done|]. unfold Len. lia. }
  exists x, h'. split_and!; [done..| | |].
  - rewrite Hp, <-Hsplit. symmetry. by eapply Swap_perm.
  - rewrite H0, index_take, decide_True, (index_Swap _ _ _ _ _ Hsw) by lia.
    by rewrite !decide_False by lia.
  - rewrite !heap_ok_alt. intros Hok. split; [|by apply root_min].
    apply Hinv. split; [|lia].
    intros k Hk Hpk a b. rewrite !index_take by lia.
    case_decide; [|done]. rewrite decide_True by zlia.
    rewrite !(index_Swap _ _ _ _ _ Hsw).
    rewrite !decide_False by zlia. by apply Hok.
Qed.

(** ** Sequences of calls *)

(** What every call keeps: the dummy at index 0 stays, the real elements
    are those pushed and not yet popped, and the order is kept. *)
Lemma Push_frame s rest x :
  ∃ rest', Push (s :: rest) (ItemPtr x) = Some (s :: rest') ∧
           rest' ≡ₚ rest ++ [x] ∧
           (heap_ok (s :: rest) → heap_ok (s :: rest')).
Proof.
  destruct (Push_spec (s :: rest) x) as (h' & Hpush & Hp & H0 & Hok).
  { unfold Len; simpl; lia. }
  destruct h' as [|s' rest']; [done|]. cbv in H0. simplify_eq.
  exists rest'. split_and!; [done| |done].
  by apply (inj (s ::.)).
Qed.

Lemma Pop_frame s rest :
  match rest with
  | [] => Pop (s :: rest) = Some (None, s :: rest)
  | _ :: _ =>
      ∃ x rest', Pop (s :: rest) = Some (Some x, s :: rest') ∧
                 rest ≡ₚ x :: rest' ∧ head rest = Some x ∧
                 (heap_ok (s :: rest) →
                    heap_ok (s :: rest') ∧ Forall (item_le x) rest)
  end.
Proof.
  destruct rest as [|r rest]; [by apply Pop_empty|].
  destruct (Pop_spec (s :: r :: rest)) as (x & h' & Hpop & Hx & Hp & H0 & Hok).
  { unfold Len; simpl; lia. }
  destruct h' as [|s' rest']; [done|]. cbv in H0, Hx. simplify_eq.
  exists x, rest'. split_and!; [done| |done|].
  - apply (inj (s ::.)). rewrite Hp; simpl.
    by rewrite <-Permutation_cons_append.
  - intros [? Hmin]%Hok. split; [done|]. apply Forall_lookup_2.
    intros i y Hy. apply (Hmin (Z.of_nat (S i))); [lia|].
    apply index_Some. split; [lia|]. by rewrite Nat2Z.id.
Qed.

Lemma calls_frame cs s rest :
  ∃ rs rest', calls cs (s :: rest) = Some (rs, s :: rest') ∧
              omap id rs ++ rest' ≡ₚ rest ++ pushed cs ∧
              (heap_ok (s :: rest) → heap_ok (s :: rest')).
Proof.
  revert rest. induction cs as [|[x|] cs IH]; intros rest; simpl.
  - exists [], rest. by rewrite app_nil_r.
  - destruct (Push_frame s rest x) as (rest1 & -> & Hp & Hok); simpl.
    destruct (IH rest1) as (rs & rest' & -> & Hp' & Hok').
    exists rs, rest'. split_and!; [done| |by auto].
    rewrite Hp', Hp. unfold pushed; simpl. by rewrite <-app_assoc.
  - pose proof (Pop_frame s rest) as Hpop.
    destruct rest as [|r rest].
    + rewrite Hpop; simpl.
      destruct (IH []) as (rs & rest' & -> & Hp' & Hok'); simpl.
      exists (None :: rs), rest'. done.
    + destruct Hpop as (x & rest1 & -> & Hp & _ & Hok); simpl.
      destruct (IH rest1) as (rs & rest' & -> & Hp' & Hok'); simpl.
      exists (Some x :: rs), rest'. split_and!; [done| |by intros [??]%Hok; auto].
      unfold pushed in *; simpl. rewrite Hp', !app_comm_cons. by rewrite Hp.
Qed.

(** ** Results on the heap *)

(** C3. Heap order invariant: after every sequence of interleaved Push and
    Pop calls on a heap built by NewHeap no call has panicked, and for
    every non-root index [i] (2 ≤ i ≤ Len) the item at [parent i] compares
    less-or-equal to the item at [i], priority first and then tie-break;
    in the terms of the source, [Less i (parent i)] is false. *)
Theorem heap_order_invariant (cs : list (call D)) :
  ∃ rs h, calls cs NewHeap = Some (rs, h) ∧
    ∀ i, 2 ≤ i ≤ Len h →
      Less h i (parent i) = Some false ∧
      ∃ x y, index h (parent i) = Some x ∧ index h i = Some y ∧ item_le x y.
Proof.
  destruct (calls_frame cs {| Priority := 0; Data := None; Order := 0 |} [])
    as (rs & rest & Hrun & _ & Hok).
  exists rs, (mkItem 0 None 0 :: rest). split; [done|]. intros i Hi.
  assert (heap_ok ([mkItem 0 None 0] : ItemHeap D)) as Hok0.
  { intros k Hk. unfold Len in Hk; simpl in Hk. lia. }
  specialize (Hok Hok0). split; [by apply Hok|].
  destruct (proj1 (Less_Some _ _ _ _) (Hok i Hi)) as (y & x & ? & ? & ?).
  exists x, y. split_and!; [done..|]. by apply item_less_false.
Qed.

(** C9. Index 0 is a sentinel and the array is 1-indexed: [parent k] is
    [k/2], [leftChild k] is [2k], [rightChild k] is [2k+1]; whatever item
    sits at index 0, no sequence of Push and Pop calls moves or modifies
    it or returns it (what the Pops return are real elements: together
    with the real elements left they rearrange those present and those
    pushed), and Len counts the real elements only, the array length minus
    one. *)
Theorem sentinel_untouched (s : Item D) (rest : list (Item D))
    (cs : list (call D)) :
  (∀ k, 0 ≤ k →
     parent k = k `div` 2 ∧ leftChild k = 2 * k ∧ rightChild k = 2 * k + 1) ∧
  index (D:=D) NewHeap 0 = Some (mkItem 0 None 0) ∧
  ∃ rs rest',
    calls cs (s :: rest) = Some (rs, s :: rest') ∧
    index (s :: rest') 0 = Some s ∧
    omap id rs ++ rest' ≡ₚ rest ++ pushed cs ∧
    Len (s :: rest') = Z.of_nat (length rest') ∧
    Len (s :: rest') = Z.of_nat (length (s :: rest')) - 1.
Proof.
  split; [|split; [done|]].
  { intros k Hk. unfold parent, leftChild, rightChild.
    rewrite Z.quot_div_nonneg by lia. lia. }
  destruct (calls_frame cs s rest) as (rs & rest' & Hrun & Hp & _).
  exists rs, rest'. split_and!; [done..| |done].
  unfold Len; simpl length. lia.
Qed.

(** ** Pop, step by step *)
Lemma children_cases h j :
  children h j =
    if decide (leftChild j > Len h) then
      if decide (rightChild j > Len h) then [] else [rightChild j]
    else if decide (rightChild j > Len h) then [leftChild j]
         else [leftChild j; rightChild j].
Proof.
  unfold children. rewrite !filter_cons, filter_nil.
  repeat case_decide; (done || lia).
Qed.

Lemma sift_down_amended_down (m : nat) h j :
  1 ≤ j → Len h - j < Z.of_nat m → sift_down_amended m h j = down h j.
Proof.
  revert h j. induction m as [|m IH]; intros h j Hj Hm;
    rewrite down_unfold; cbv zeta.
  { simpl. rewrite decide_True by zlia. done. }
  simpl. rewrite children_cases.
  destruct (decide (leftChild j > Len h)) as [Hl|Hl].
  { rewrite decide_True by zlia. done. }
  assert (∀ c, (c = leftChild j ∨ c = rightChild j) → c ≤ Len h →
    (Less h c j ≫= λ lt : bool,
       if lt then Swap h j c ≫= λ h', sift_down_amended m h' c else Some h) =
    ((if decide (c ≤ Len h) then Less h c j else Some false) ≫= λ lt : bool,
       if lt then Swap h j c ≫= λ h', down h' c else Some h)) as Hstep.
  { intros c Hc Hle. rewrite decide_True by done.
    destruct (Less h c j) as [[]|]; simpl; [|done..].
    destruct (Swap h j c) as [h'|] eqn:Hsw; simpl; [|done].
    apply IH; [destruct Hc; zlia|].
    rewrite (Swap_Len _ _ _ _ Hsw). destruct Hc; zlia. }
  destruct (decide (rightChild j > Len h)) as [Hr|Hr]; simpl.
  { apply Hstep; [auto|lia]. }
  destruct (Less h (leftChild j) (rightChild j)) as [[]|]; simpl; [| |done].
  - apply Hstep; [auto|lia].
  - apply Hstep; [auto|lia].
Qed.

Lemma Pop_amended_eq h : 0 < Len h → Pop h = Pop_amended h.
Proof.
  intros Hn. unfold Pop, Pop_amended, Empty.
  rewrite bool_decide_eq_false_2 by lia. cbv zeta.
  destruct (index_in_range h 1) as [x Hx]; [lia|]. rewrite Hx; simpl.
  destruct (Swap_in_range h 1 (Len h)) as [old Hsw]; [lia..|].
  rewrite Hsw; simpl.
  assert (index old (Len h) = Some x) as ->.
  { rewrite (index_Swap _ _ _ _ _ Hsw). case_decide; [congruence|].
    by rewrite decide_True. }
  simpl. pose proof (Swap_Len _ _ _ _ Hsw) as Hlen.
  assert (removelast old = take (Z.to_nat (Len h)) old) as ->.
  { rewrite removelast_firstn_len. f_equal. unfold Len in *. lia. }
  rewrite sift_down_amended_down; [done..|].
  unfold Len in *. rewrite length_take. lia.
Qed.

(** C4, as amended.  On a non-empty heap in heap order Pop does not panic
    and goes through exactly these steps: it swaps the root with the last
    element, removes the last element (the old root), and sifts the new
    root downward, at each step choosing the smaller of its two children
    (the only child if there is one, stopping if there is none) and
    swapping with it only when it compares less than the item that sinks,
    stopping otherwise; it returns the original root item, which is a
    minimum of the heap. *)
Theorem Pop_steps h :
  0 < Len h → heap_ok h →
  Pop h = Pop_amended h ∧
  ∃ x h', Pop h = Some (Some x, h') ∧ index h 1 = Some x ∧
          ∀ k y, 1 ≤ k → index h k = Some y → item_less y x = false.
Proof.
  intros Hn Hok. split; [by apply Pop_amended_eq|].
  destruct (Pop_spec h Hn) as (x & h' & Hpop & Hx & Hp & _ & Hmin).
  destruct (Hmin Hok) as [Hok' Hle].
  exists x, h'. split_and!; [done..|]. intros k y Hk Hy.
  apply item_less_false. by eapply Hle.
Qed.

End heap_facts.

(** * Properties of package requestpq *)
Import requestpq.

Section queue_facts.
Context {D : Type}.
Implicit Types (q : Queue D) (s x y : Item D) (rest l : list (Item D)).
Implicit Types (ops : list (op D)) (c : Z).

(** ** Draining in order *)

(** A list in comparator order that rearranges a strictly ordered list is
    that list. *)
Lemma sorted_perm_unique l1 l2 :
  l1 ≡ₚ l2 → StronglySorted item_le l1 → StronglySorted item_lt l2 →
  l1 = l2.
Proof.
  revert l2. induction l1 as [|x l1 IH]; intros l2 Hp H1 H2.
  { by apply Permutation_nil_l in Hp. }
  destruct l2 as [|y l2]; [by apply Permutation_nil_r in Hp|].
  apply StronglySorted_inv in H1 as [H1 Hx].
  apply StronglySorted_inv in H2 as [H2 Hy].
  assert (x = y) as ->.
  { assert (x ∈ y :: l2) as [?|Hin]%elem_of_cons by (rewrite <-Hp; left);
      [done|].
    assert (y ∈ x :: l1) as [->|Hin']%elem_of_cons by (rewrite Hp; left);
      [done|].
    rewrite Forall_forall in Hx, Hy.
    specialize (Hx _ Hin'). specialize (Hy _ Hin). item_order. }
  f_equal. apply IH; [by eapply (inj (y ::.))|done..].
Qed.

Lemma pop_all_spec s rest :
  heap_ok (s :: rest) →
  ∃ l, pop_all (length rest) (s :: rest) = Some (l, [s]) ∧
       l ≡ₚ rest ∧ StronglySorted item_le l.
Proof.
  remember (length rest) as n eqn:Hn. revert rest Hn.
  induction n as [|n IH]; intros rest Hn Hok; simpl.
  { destruct rest; [|done]. exists []. split_and!; [done..|constructor]. }
  pose proof (Pop_frame s rest) as Hpop.
  destruct rest as [|r rest]; [done|].
  destruct Hpop as (x & rest' & -> & Hp & _ & Hok'); simpl.
  destruct (Hok' Hok) as [Hok1 Hmin].
  destruct (IH rest') as (l & -> & Hl & Hs); [|done|]; simpl.
  { apply Permutation_length in Hp. simpl in *. lia. }
  exists (x :: l). split_and!; [done|by rewrite Hl|].
  constructor; [done|]. rewrite Hl.
  rewrite Hp in Hmin. by apply Forall_cons in Hmin as [_ ?].
Qed.

Lemma push_all_spec l s rest :
  ∃ rest', push_all l (s :: rest) = Some (s :: rest') ∧
           rest' ≡ₚ rest ++ l ∧
           (heap_ok (s :: rest) → heap_ok (s :: rest')).
Proof.
  unfold push_all. revert rest. induction l as [|x l IH]; intros rest; simpl.
  { exists rest. by rewrite app_nil_r. }
  destruct (Push_frame s rest x) as (rest1 & -> & Hp & Hok).
  destruct (IH rest1) as (rest' & -> & Hp' & Hok').
  exists rest'. split_and!; [done| |by auto].
  by rewrite Hp', Hp, <-app_assoc.
Qed.

(** ** Renumbering *)
Definition task x : option D * Z := (Data x, Priority x).

Lemma renumber_task l : task <$> renumber l = task <$> l.
Proof.
  unfold renumber. apply list_eq. intros i.
  rewrite !list_lookup_fmap, list_lookup_imap. by destruct (l !! i).
Qed.

Lemma renumber_length l : length (renumber l) = length l.
Proof. unfold renumber. by rewrite length_imap. Qed.

Lemma renumber_lookup l i x :
  l !! i = Some x →
  renumber l !! i =
    Some {| Priority := Priority x; Data := Data x; Order := Z.of_nat i |}.
Proof. intros Hx. unfold renumber. by rewrite list_lookup_imap, Hx. Qed.

Lemma renumber_sorted l :
  StronglySorted item_le l → StronglySorted item_lt (renumber l).
Proof.
  unfold renumber.
  cut (∀ f : nat → Z, (∀ i j, (i < j)%nat → f i < f j) →
         StronglySorted item_le l →
         StronglySorted item_lt
           (imap (λ k x, {| Priority := Priority x; Data := Data x;
                            Order := f k |}) l)).
  { intros H. apply (H Z.of_nat). lia. }
  induction l as [|x l IH]; intros f Hf Hs; simpl; [constructor|].
  apply StronglySorted_inv in Hs as [Hs Hx].
  constructor.
  - apply (IH (f ∘ S)); [|done]. intros i j ?. apply Hf. lia.
  - apply Forall_lookup_2. intros i y. rewrite list_lookup_imap.
    destruct (l !! i) as [z|] eqn:Hz; [|done]. intros [= <-].
    rewrite Forall_lookup in Hx. specialize (Hx _ _ Hz).
    specialize (Hf 0%nat (S i) ltac:(lia)).
    unfold item_le, item_lt in *; simpl in *. lia.
Qed.

Lemma ReOrder_spec s rest :
  heap_ok (s :: rest) →
  ∃ l rest',
    pop_all (length rest) (s :: rest) = Some (l, [s]) ∧
    l ≡ₚ rest ∧ StronglySorted item_le l ∧
    ReOrder (s :: rest) =
      Some (Z.of_nat (length rest) `mod` 2 ^ 64, s :: rest') ∧
    rest' ≡ₚ renumber l ∧ heap_ok (s :: rest').
Proof.
  intros Hok. destruct (pop_all_spec s rest Hok) as (l & Hpop & Hl & Hs).
  destruct (push_all_spec (renumber l) s []) as (rest' & Hpush & Hp & Hok').
  exists l, rest'. split_and!; [done..| |done|].
  - unfold ReOrder, heap.Len; cbv zeta; simpl length.
    replace (Z.of_nat (S (length rest)) - 1) with (Z.of_nat (length rest))
      by lia.
    rewrite Nat2Z.id, Hpop; simpl. by rewrite Hpush.
  - apply Hok'. intros i Hi. unfold heap.Len in Hi; simpl in Hi. lia.
Qed.

(** ** Enqueue and Dequeue on a well-formed queue *)

(** What Enqueue pushes onto: the queued items themselves, or their
    renumbering in dequeue order when the counter is exhausted. *)
Definition requeued s rest c (base : list (Item D)) : Prop :=
  if decide (c = MaxUint64) then
    ∃ l, pop_all (length rest) (s :: rest) = Some (l, [s]) ∧
         l ≡ₚ rest ∧ StronglySorted item_le l ∧ base = renumber l
  else base = rest.

Lemma Enqueue_spec s rest c d p :
  heap_ok (s :: rest) → 0 ≤ c < 2 ^ 64 →
  ∃ rest' c' base,
    Enqueue (mkQueue (s :: rest) c) d p = Some (mkQueue (s :: rest') c') ∧
    heap_ok (s :: rest') ∧ 0 ≤ c' < 2 ^ 64 ∧
    rest' ≡ₚ base ++ [mkItem p d c'] ∧
    requeued s rest c base ∧ (c ≠ MaxUint64 → c' = c + 1).
Proof.
  intros Hok Hc. unfold Enqueue, requeued; simpl.
  destruct (decide (c = MaxUint64)) as [->|Hne].
  - destruct (ReOrder_spec s rest Hok)
      as (l & rest1 & Hpop & Hl & Hs & -> & Hp1 & Hok1); simpl.
    destruct (Push_frame s rest1
      (mkItem p d ((Z.of_nat (length rest) `mod` 2 ^ 64 + 1) `mod` 2 ^ 64)))
      as (rest' & Hpush & Hp & Hok'); simpl in *.
    rewrite Hpush; simpl.
    pose proof (Z.mod_pos_bound
      (Z.of_nat (length rest) `mod` 2 ^ 64 + 1) (2 ^ 64) eq_refl).
    eexists rest', _, (renumber l). split_and!; [done|by auto|lia..| | |done].
    + by rewrite Hp, Hp1.
    + by exists l.
  - simpl. assert ((c + 1) `mod` 2 ^ 64 = c + 1) as ->.
    { apply Z.mod_small. unfold MaxUint64 in Hne. lia. }
    destruct (Push_frame s rest (mkItem p d (c + 1)))
      as (rest' & -> & Hp & Hok'); simpl.
    exists rest', (c + 1), rest.
    unfold MaxUint64 in Hne. split_and!; [done|by auto|lia..|done|done|done].
Qed.

Lemma Dequeue_spec s rest c :
  match rest with
  | [] =>
      Dequeue (mkQueue (s :: rest) c) =
        Some ((None, Some "pop an empty queue"%string), mkQueue (s :: rest) c)
  | _ :: _ =>
      ∃ x rest',
        Dequeue (mkQueue (s :: rest) c) =
          Some ((Data x, None), mkQueue (s :: rest') c) ∧
        rest ≡ₚ x :: rest' ∧ head rest = Some x ∧
        (heap_ok (s :: rest) →
           heap_ok (s :: rest') ∧ Forall (item_le x) rest)
  end.
Proof.
  unfold Dequeue; simpl. pose proof (Pop_frame s rest) as Hpop.
  destruct rest as [|r rest]; [by rewrite Hpop|].
  destruct Hpop as (x & rest' & -> & ? & ? & ?); simpl. by exists x, rest'.
Qed.

(** ** Runs of calls *)
Definition ok_state s rest c : Prop := heap_ok (s :: rest) ∧ 0 ≤ c < 2 ^ 64.

(** The payloads handed to Enqueue, and those handed back by the
    Dequeues that succeeded. *)
Definition enqueued ops : list (option D) :=
  omap (λ o, match o with Enq d _ => Some d | Deq => None end) ops.
Definition dequeued (outs : list (option D * option error))
  : list (option D) :=
  omap (λ r, match r.2 with None => Some r.1 | Some _ => None end) outs.

Lemma requeued_task s rest c base :
  requeued s rest c base → task <$> base ≡ₚ task <$> rest.
Proof.
  unfold requeued. case_decide; [|by intros ->].
  intros (l & _ & Hl & _ & ->). by rewrite renumber_task, Hl.
Qed.

Lemma requeued_Data s rest c base :
  requeued s rest c base → Data <$> base ≡ₚ Data <$> rest.
Proof.
  intros Hq%requeued_task.
  apply (fmap_Permutation fst) in Hq. by rewrite <-!list_fmap_compose in Hq.
Qed.

Lemma run_Enq d p ops q :
  run (Enq d p :: ops) q = q' ← Enqueue q d p; run ops q'.
Proof. done. Qed.

Lemma run_Deq ops q :
  run (Deq :: ops) q =
    '(r, q') ← Dequeue q; '(rs, q'') ← run ops q'; Some (r :: rs, q'').
Proof. done. Qed.

Lemma run_spec ops s rest c :
  ok_state s rest c →
  ∃ outs rest' c',
    run ops (mkQueue (s :: rest) c) = Some (outs, mkQueue (s :: rest') c') ∧
    ok_state s rest' c' ∧
    dequeued outs ++ (Data <$> rest') ≡ₚ (Data <$> rest) ++ enqueued ops.
Proof.
  revert rest c. induction ops as [|[d p|] ops IH]; intros rest c [Hok Hc].
  - exists [], rest, c. simpl. by rewrite app_nil_r.
  - destruct (Enqueue_spec s rest c d p Hok Hc)
      as (rest1 & c1 & base & Henq & Hok1 & Hc1 & Hp & Hbase & _).
    destruct (IH rest1 c1) as (outs & rest' & c' & Hrun & Hst & Hacc);
      [done|].
    exists outs, rest', c'. rewrite run_Enq, Henq; simpl.
    split_and!; [done..|].
    rewrite Hacc, Hp, fmap_app, (requeued_Data _ _ _ _ Hbase).
    unfold enqueued; simpl. by rewrite <-app_assoc.
  - pose proof (Dequeue_spec s rest c) as Hdeq. destruct rest as [|r rest].
    + destruct (IH [] c) as (outs & rest' & c' & Hrun & Hst & Hacc); [done|].
      rewrite run_Deq, Hdeq; simpl. rewrite Hrun; simpl.
      by eexists _, rest', c'.
    + destruct Hdeq as (x & rest1 & Hdeq & Hp & _ & Hok1).
      destruct (Hok1 Hok) as [Hok' _].
      destruct (IH rest1 c) as (outs & rest' & c' & Hrun & Hst & Hacc);
        [done|].
      rewrite run_Deq, Hdeq; simpl. rewrite Hrun; simpl.
      eexists _, rest', c'. split_and!; [done..|].
      change (Data x :: (dequeued outs ++ (Data <$> rest'))
                ≡ₚ (Data <$> (r :: rest)) ++ enqueued ops).
      rewrite Hacc.
      change ((Data x :: (Data <$> rest1)) ++ enqueued ops
                ≡ₚ (Data <$> (r :: rest)) ++ enqueued ops).
      apply Permutation_app_tail. by rewrite Hp.
Qed.

Lemma run_app ops1 ops2 q :
  run (ops1 ++ ops2) q =
    '(o1, q1) ← run ops1 q; '(o2, q2) ← run ops2 q1; Some (o1 ++ o2, q2).
Proof.
  revert q. induction ops1 as [|[d p|] ops1 IH]; intros q.
  - simpl. destruct (run ops2 q) as [[??]|]; done.
  - rewrite <-app_comm_cons, !run_Enq.
    destruct (Enqueue q d p) as [q1|]; simpl; [apply IH|done].
  - rewrite <-app_comm_cons, !run_Deq.
    destruct (Dequeue q) as [[r q1]|]; simpl; [|done]. rewrite IH.
    destruct (run ops1 q1) as [[o1 q2]|]; simpl; [|done].
    destruct (run ops2 q2) as [[o2 q3]|]; simpl; done.
Qed.

(** Enqueues only: the queue holds the tasks handed in. *)
Definition enqueue_all (tasks : list (option D * Z)) : list (op D) :=
  (λ t, Enq t.1 t.2) <$> tasks.

Lemma enqueue_all_spec tasks s rest c :
  ok_state s rest c →
  ∃ rest' c',
    run (enqueue_all tasks) (mkQueue (s :: rest) c) =
      Some ([], mkQueue (s :: rest') c') ∧
    ok_state s rest' c' ∧ task <$> rest' ≡ₚ (task <$> rest) ++ tasks.
Proof.
  revert rest c. induction tasks as [|[d p] tasks IH]; intros rest c [Hok Hc].
  { exists rest, c. simpl. by rewrite app_nil_r. }
  destruct (Enqueue_spec s rest c d p Hok Hc)
    as (rest1 & c1 & base & Henq & Hok1 & Hc1 & Hp & Hbase & _).
  destruct (IH rest1 c1) as (rest' & c' & Hrun & Hst & Hacc); [done|].
  exists rest', c'. unfold enqueue_all in *. rewrite fmap_cons, run_Enq.
  simpl. rewrite Henq; simpl. split_and!; [done..|].
  rewrite Hacc, Hp, fmap_app, (requeued_task _ _ _ _ Hbase); simpl.
  by rewrite <-app_assoc.
Qed.

(** Draining: as many Dequeues as there are items all succeed, hand the
    items back in comparator order and leave the queue empty. *)
Lemma drain_spec s rest c :
  heap_ok (s :: rest) →
  ∃ l, run (replicate (length rest) Deq) (mkQueue (s :: rest) c) =
         Some ((λ x, (Data x, None)) <$> l, mkQueue [s] c) ∧
       pop_all (length rest) (s :: rest) = Some (l, [s]) ∧
       l ≡ₚ rest ∧ StronglySorted item_le l.
Proof.
  remember (length rest) as n eqn:Hn. revert rest Hn.
  induction n as [|n IH]; intros rest Hn Hok.
  { destruct rest; [|done]. exists []. split_and!; [done..|constructor]. }
  pose proof (Dequeue_spec s rest c) as Hdeq.
  pose proof (Pop_frame s rest) as Hpop.
  destruct rest as [|r rest]; [done|].
  destruct Hdeq as (x & rest' & Hdeq & Hp & Hhd & Hok').
  destruct Hpop as (x' & rest'' & Hpop & _ & Hhd' & _).
  assert (x' = x) as -> by congruence.
  unfold Dequeue in Hdeq; simpl in Hdeq. rewrite Hpop in Hdeq.
  simpl in Hdeq. simplify_eq.
  destruct (Hok' Hok) as [Hok1 Hmin].
  destruct (IH rest') as (l & Hrun & Hpa & Hl & Hs); [|done|].
  { apply Permutation_length in Hp. simpl in *. lia. }
  exists (x :: l). split_and!.
  - change (replicate (S n) Deq) with (Deq :: replicate n (Deq (D:=D))).
    rewrite run_Deq. unfold Dequeue at 1; simpl. rewrite Hpop; simpl.
    by rewrite Hrun.
  - simpl. rewrite Hpop; simpl. by rewrite Hpa.
  - by rewrite Hl.
  - constructor; [done|]. rewrite Hl.
    rewrite Hp in Hmin. by apply Forall_cons in Hmin as [_ ?].
Qed.

Lemma item_le_Priority l :
  StronglySorted item_le l → Sorted Z.le (Priority <$> l).
Proof.
  intros Hs. apply StronglySorted_Sorted.
  induction Hs as [|x l Hs IH Hx]; [constructor|].
  rewrite fmap_cons. constructor; [done|].
  apply Forall_fmap. eapply Forall_impl; [done|].
  intros y Hy; simpl. unfold item_le in Hy. lia.
Qed.

Lemma NewQueue_ok c : 0 ≤ c < 2 ^ 64 → ok_state (mkItem 0 None 0) [] c.
Proof.
  intros Hc. split; [|done]. intros i Hi.
  unfold heap.Len in Hi; simpl in Hi. lia.
Qed.

(** ** Results on the queue *)

(** C1. Priority-ascending dequeue: for every sequence of Enqueue calls on
    a new queue followed by as many Dequeue calls, no call panics, every
    Dequeue succeeds, the queue ends empty, and the payloads come back as
    those of a rearrangement of the enqueued (payload, priority) pairs
    whose priorities are non-decreasing. *)
Theorem priority_ascending_dequeue (tasks : list (option D * Z)) :
  ∃ served q',
    run (enqueue_all tasks ++ replicate (length tasks) Deq) NewQueue =
      Some ((λ t, (t.1, None)) <$> served, q') ∧
    Empty q' = true ∧
    served ≡ₚ tasks ∧ Sorted Z.le (snd <$> served).
Proof.
  destruct (enqueue_all_spec tasks (mkItem 0 None 0) [] 0)
    as (rest & c & Hrun & [Hok Hc] & Hacc); [by apply NewQueue_ok|].
  destruct (drain_spec (mkItem 0 None 0) rest c Hok)
    as (l & Hdrain & _ & Hl & Hs).
  exists (task <$> l), (mkQueue [mkItem 0 None 0] c).
  assert (length tasks = length rest) as Hlen.
  { apply Permutation_length in Hacc. by rewrite !length_fmap in Hacc. }
  split_and!.
  - rewrite run_app. unfold NewQueue, NewHeap. rewrite Hrun; simpl.
    rewrite Hlen, Hdrain; simpl. by rewrite <-list_fmap_compose.
  - done.
  - by rewrite Hl, Hacc.
  - rewrite <-list_fmap_compose. by apply item_le_Priority.
Qed.

Lemma count_at ops :
  ∃ outs rest c,
    run ops NewQueue = Some (outs, mkQueue (mkItem 0 None 0 :: rest) c) ∧
    ok_state (mkItem 0 None 0) rest c ∧
    Z.of_nat (length rest) =
      Z.of_nat (length (enqueued ops)) - Z.of_nat (length (dequeued outs)).
Proof.
  destruct (run_spec ops (mkItem 0 None 0) [] 0)
    as (outs & rest & c & Hrun & Hst & Hacc); [by apply NewQueue_ok|].
  exists outs, rest, c. split_and!; [done..|].
  apply Permutation_length in Hacc.
  rewrite !length_app, !length_fmap in Hacc.
  simpl in *. lia.
Qed.

(** C6. Count consistency: after any sequence of calls on a new queue, of
    which E are Enqueues and D are Dequeues that succeeded, Len returns
    E - D (and no call has panicked).  The Dequeues that succeed are those
    made while items are available: at every Dequeue of the sequence, Len
    is E - D of the calls made so far, the Dequeue succeeds exactly when
    that is positive, and it then lowers Len by one; otherwise it changes
    nothing. *)
Theorem count_consistency ops :
  ∃ outs q',
    run ops NewQueue = Some (outs, q') ∧
    Len q' =
      Z.of_nat (length (enqueued ops)) - Z.of_nat (length (dequeued outs)) ∧
    ∀ pre post, ops = pre ++ Deq :: post →
      ∃ outs1 q1 r q2 outs2,
        run pre NewQueue = Some (outs1, q1) ∧
        Dequeue q1 = Some (r, q2) ∧
        run post q2 = Some (outs2, q') ∧
        outs = outs1 ++ r :: outs2 ∧
        Len q1 =
          Z.of_nat (length (enqueued pre)) -
          Z.of_nat (length (dequeued outs1)) ∧
        (r.2 = None ↔ 0 < Len q1) ∧
        Len q2 = match r.2 with None => Len q1 - 1 | Some _ => Len q1 end.
Proof.
  destruct (count_at ops) as (outs & rest & c & Hrun & _ & Hlen).
  exists outs, (mkQueue (mkItem 0 None 0 :: rest) c). split_and!; [done| |].
  { unfold Len, heap.Len; simpl. lia. }
  intros pre post ->.
  destruct (count_at pre)
    as (outs1 & rest1 & c1 & Hpre & [Hok1 Hc1] & Hlen1).
  rewrite run_app, Hpre in Hrun. cbn -[run] in Hrun.
  rewrite run_Deq in Hrun.
  pose proof (Dequeue_spec (mkItem 0 None 0) rest1 c1) as Hdeq.
  assert (Len (mkQueue (mkItem 0 None 0 :: rest1) c1) =
            Z.of_nat (length rest1)) as HLen1
    by (unfold Len, heap.Len; simpl; lia).
  destruct rest1 as [|x1 rest1].
  - rewrite Hdeq in Hrun. cbn -[run] in Hrun.
    destruct (run post _) as [[outs2 q2]|] eqn:Hpost; [|done].
    cbn in Hrun. simplify_eq.
    eexists outs1, _, _, _, outs2. split_and!; [done..| | |done].
    + rewrite HLen1. simpl in *. lia.
    + rewrite HLen1. simpl. split; [done|lia].
  - destruct Hdeq as (x & rest2 & Hdeq & Hp & _). rewrite Hdeq in Hrun.
    cbn -[run] in Hrun.
    destruct (run post _) as [[outs2 q2]|] eqn:Hpost; [|done].
    cbn in Hrun. simplify_eq.
    eexists outs1, _, _, _, outs2. split_and!; [done..| | |].
    + rewrite HLen1. lia.
    + rewrite HLen1. simpl. split; [lia|done].
    + apply Permutation_length in Hp. unfold Len, heap.Len; simpl in *. lia.
Qed.

Lemma renumber_Order l :
  Order <$> renumber l = Z.of_nat <$> seq 0 (length l).
Proof.
  apply list_eq. intros i. unfold renumber.
  rewrite !list_lookup_fmap, list_lookup_imap.
  destruct (l !! i) as [x|] eqn:Hx; simpl.
  - by rewrite (lookup_seq_lt _ _ _ (lookup_lt_Some _ _ _ Hx)).
  - by rewrite lookup_seq_ge by (by apply lookup_ge_None).
Qed.

(** The dequeue order of a heap that holds a strictly ordered list. *)
Lemma pop_all_unique s rest l :
  heap_ok (s :: rest) → rest ≡ₚ l → StronglySorted item_lt l →
  pop_all (length rest) (s :: rest) = Some (l, [s]).
Proof.
  intros Hok Hp Hs.
  destruct (pop_all_spec s rest Hok) as (l' & -> & Hl' & Hs').
  do 2 f_equal. apply sorted_perm_unique; [by rewrite Hl'|done..].
Qed.

(** C7. Overflow renumbering: when the counter equals the maximum
    unsigned value at the start of an Enqueue on a well-formed queue, the
    renumbering pass hands the items, taken in dequeue order, the sequence
    numbers 0..n-1 (payloads and priorities untouched), the heap then
    dequeues them in that same order, and so it still does, around the new
    item, once Enqueue has pushed it. *)
Theorem renumbering_keeps_order s rest d p :
  heap_ok (s :: rest) →
  ∃ l c rest1 c' rest',
    pop_all (length rest) (s :: rest) = Some (l, [s]) ∧
    ReOrder (s :: rest) = Some (c, s :: rest1) ∧
    pop_all (length rest1) (s :: rest1) = Some (renumber l, [s]) ∧
    Order <$> renumber l = Z.of_nat <$> seq 0 (length rest) ∧
    task <$> renumber l = task <$> l ∧
    Enqueue (mkQueue (s :: rest) MaxUint64) d p =
      Some (mkQueue (s :: rest') c') ∧
    ∃ l1 l2,
      pop_all (length rest') (s :: rest') =
        Some (l1 ++ mkItem p d c' :: l2, [s]) ∧
      l1 ++ l2 = renumber l.
Proof.
  intros Hok.
  destruct (ReOrder_spec s rest Hok)
    as (l & rest1 & Hpop & Hl & Hs & Hre & Hp1 & Hok1).
  pose proof (renumber_sorted l Hs) as Hrs.
  set (c := Z.of_nat (length rest) `mod` 2 ^ 64) in *.
  destruct (Push_frame s rest1 (mkItem p d ((c + 1) `mod` 2 ^ 64)))
    as (rest' & Hpush & Hp & Hok').
  destruct (pop_all_spec s rest' (Hok' Hok1)) as (l' & Hpop' & Hl' & Hs').
  assert (mkItem p d ((c + 1) `mod` 2 ^ 64) ∈ l') as Hin.
  { rewrite Hl', Hp. apply elem_of_app. right. by left. }
  apply list_elem_of_split in Hin as (l1 & l2 & ->).
  exists l, c, rest1, ((c + 1) `mod` 2 ^ 64), rest'.
  split_and!; [done..|by apply pop_all_unique| | | |].
  - by rewrite renumber_Order, (Permutation_length Hl).
  - apply renumber_task.
  - unfold Enqueue. cbn [count heap]. rewrite decide_True by done.
    rewrite Hre. cbn [mbind option_bind]. by rewrite Hpush.
  - exists l1, l2. split; [done|].
    apply sorted_perm_unique; [|  |done].
    + apply (inj (mkItem p d ((c + 1) `mod` 2 ^ 64) ::.)).
      by rewrite Permutation_middle, Hl', Hp, Hp1, <-Permutation_cons_append.
    + apply StronglySorted_app in Hs' as (H12 & H1 & H2).
      apply StronglySorted_inv in H2 as [H2 _].
      apply StronglySorted_app_2; [|done..].
      intros x1 x2 ??. apply H12; [done|by right].
Qed.

(** ** Ties are served in enqueue order *)

Lemma StronglySorted_lookup (R : relation (Item D)) l i j x y :
  StronglySorted R l → (i < j)%nat → l !! i = Some x → l !! j = Some y →
  R x y.
Proof.
  intros Hs. revert i j. induction Hs as [|z l Hs IH Hz]; intros i j Hij Hx Hy.
  { done. }
  destruct j as [|j]; [lia|]. destruct i as [|i]; simpl in *.
  - simplify_eq. rewrite Forall_lookup in Hz. by eapply Hz.
  - eapply (IH i j); [lia|done..].
Qed.

Lemma NoDup_fmap_eq {B} (f : Item D → B) l x y :
  NoDup (f <$> l) → x ∈ l → y ∈ l → f x = f y → x = y.
Proof.
  intros Hnd [i Hi]%list_elem_of_lookup [j Hj]%list_elem_of_lookup Hf.
  assert (i = j) as ->; [|congruence].
  eapply NoDup_lookup; [done| |]; rewrite list_lookup_fmap.
  - by rewrite Hi.
  - by rewrite Hj, Hf.
Qed.

(** Two queued items of one priority keep their relative tie-break order
    through whatever Enqueue does to the queue before pushing. *)
Lemma requeued_pair s rest c base xa xb :
  requeued s rest c base → xa ∈ rest → xb ∈ rest →
  Priority xa = Priority xb → Order xa < Order xb →
  ∃ xa' xb', xa' ∈ base ∧ xb' ∈ base ∧
    Data xa' = Data xa ∧ Data xb' = Data xb ∧
    Priority xa' = Priority xb' ∧ Order xa' < Order xb'.
Proof.
  unfold requeued. case_decide; [|intros ->; by exists xa, xb].
  intros (l & _ & Hl & Hs & ->) Ha Hb Hp Ho.
  rewrite <-Hl in Ha, Hb.
  apply list_elem_of_lookup in Ha as [ia Ha].
  apply list_elem_of_lookup in Hb as [ib Hb].
  assert (ia < ib)%nat.
  { destruct (decide (ia < ib)%nat); [done|].
    destruct (decide (ia = ib)) as [->|]; [simplify_eq; lia|].
    pose proof (StronglySorted_lookup _ _ ib ia _ _ Hs ltac:(lia) Hb Ha).
    unfold item_le in *. lia. }
  exists (mkItem (Priority xa) (Data xa) (Z.of_nat ia)),
         (mkItem (Priority xb) (Data xb) (Z.of_nat ib)).
  split_and!; simpl; [| |done..|lia].
  - eapply list_elem_of_lookup_2, renumber_lookup, Ha.
  - eapply list_elem_of_lookup_2, renumber_lookup, Hb.
Qed.

Lemma elem_of_dequeued (outs : list (option D * option error)) d :
  d ∈ dequeued outs ↔ (d, None) ∈ outs.
Proof.
  unfold dequeued. rewrite list_elem_of_omap. split.
  - intros ([d' [e|]] & Hin & ?); simplify_eq/=. done.
  - intros Hin. by exists (d, None).
Qed.

Lemma dequeued_app (o1 o2 : list (option D * option error)) :
  dequeued (o1 ++ o2) = dequeued o1 ++ dequeued o2.
Proof. apply omap_app. Qed.

Lemma enqueued_app ops1 ops2 :
  enqueued (ops1 ++ ops2) = enqueued ops1 ++ enqueued ops2.
Proof. apply omap_app. Qed.

(** While no Enqueue renumbers, a queued item stays as it is until it is
    dequeued, and the counter stays ahead of it. *)
Lemma kept_until_dequeued mid t s rest c xa outs q' :
  ok_state s rest c → xa ∈ rest → Order xa ≤ c →
  renumbered_at t mid (mkQueue (s :: rest) c) = [] →
  run mid (mkQueue (s :: rest) c) = Some (outs, q') →
  Data xa ∈ dequeued outs ∨ (xa ∈ tail (heap q') ∧ Order xa ≤ count q').
Proof.
  revert t rest c outs.
  induction mid as [|[d p|] mid IH]; intros t rest c outs [Hok Hc] Ha Ho Hre Hrun.
  - simpl in Hrun. simplify_eq. by right.
  - destruct (Enqueue_spec s rest c d p Hok Hc)
      as (rest1 & c1 & base & Henq & Hok1 & Hc1 & Hp & Hbase & Hc').
    simpl in Hre. rewrite Henq in Hre.
    destruct (decide (c = MaxUint64)); [done|]. simpl in Hre.
    unfold requeued in Hbase. rewrite decide_False in Hbase by done. subst base.
    rewrite run_Enq, Henq in Hrun; simpl in Hrun.
    eapply (IH (S t) rest1 c1); [done| | |done..].
    + rewrite Hp. apply elem_of_app. by left.
    + rewrite Hc' by done. lia.
  - pose proof (Dequeue_spec s rest c) as Hdeq.
    destruct rest as [|r rest]; [by apply elem_of_nil in Ha|].
    destruct Hdeq as (x & rest1 & Hdeq & Hp & _ & Hok1).
    destruct (Hok1 Hok) as [Hok' _].
    simpl in Hre. rewrite Hdeq in Hre.
    rewrite run_Deq, Hdeq in Hrun; simpl in Hrun.
    destruct (run mid _) as [[outs' q'']|] eqn:Hrun'; simplify_eq/=.
    rewrite Hp in Ha. apply elem_of_cons in Ha as [->|Ha].
    + left. by left.
    + destruct (IH (S t) rest1 c outs') as [Hd|?]; [done..| |by right].
      left. by right.
Qed.

(** Two queued items of one priority: the one with the smaller sequence
    number is handed back first, whatever calls follow. *)
Lemma pair_served_in_order post s rest c xa xb outs q' :
  ok_state s rest c → xa ∈ rest → xb ∈ rest →
  Priority xa = Priority xb → Order xa < Order xb →
  NoDup ((Data <$> rest) ++ enqueued post) →
  run post (mkQueue (s :: rest) c) = Some (outs, q') →
  ∀ k, outs !! k = Some (Data xb, None) →
       ∃ k', (k' < k)%nat ∧ outs !! k' = Some (Data xa, None).
Proof.
  revert rest c xa xb outs.
  induction post as [|[d p|] post IH];
    intros rest c xa xb outs [Hok Hc] Ha Hb Hp Ho Hnd Hrun k Hk.
  - simpl in Hrun. by simplify_eq.
  - destruct (Enqueue_spec s rest c d p Hok Hc)
      as (rest1 & c1 & base & Henq & Hok1 & Hc1 & Hp1 & Hbase & _).
    rewrite run_Enq, Henq in Hrun; simpl in Hrun.
    destruct (requeued_pair _ _ _ _ _ _ Hbase Ha Hb Hp Ho)
      as (xa' & xb' & Ha' & Hb' & Hda & Hdb & Hp' & Ho').
    rewrite <-Hda. rewrite <-Hdb in Hk.
    assert (xa' ∈ rest1 ∧ xb' ∈ rest1) as [Ha1 Hb1]
      by (rewrite Hp1, !elem_of_app; auto).
    assert (NoDup ((Data <$> rest1) ++ enqueued post)) as Hnd1.
    { by rewrite Hp1, fmap_app, (requeued_Data _ _ _ _ Hbase), <-app_assoc. }
    exact (IH rest1 c1 xa' xb' outs (conj Hok1 Hc1) Ha1 Hb1 Hp' Ho' Hnd1
              Hrun k Hk).
  - pose proof (Dequeue_spec s rest c) as Hdeq.
    destruct rest as [|r rest]; [by apply elem_of_nil in Ha|].
    destruct Hdeq as (x & rest1 & Hdeq & Hp1 & _ & Hok1).
    destruct (Hok1 Hok) as [Hok' Hmin].
    assert (NoDup (Data <$> (r :: rest))) as Hnd1
      by (by apply NoDup_app in Hnd as [? _]).
    assert (NoDup ((Data <$> rest1) ++ enqueued post)) as Hnd2.
    { rewrite Hp1, fmap_cons in Hnd. by apply NoDup_cons in Hnd as [_ ?]. }
    rewrite run_Deq, Hdeq in Hrun; simpl in Hrun.
    destruct (run post _) as [[outs' q'']|] eqn:Hrun'; simplify_eq/=.
    assert (x ∈ r :: rest) as Hx by (rewrite Hp1; left).
    assert (x ≠ xb) as Hxb.
    { intros ->. rewrite Forall_forall in Hmin. specialize (Hmin _ Ha).
      unfold item_le in Hmin. lia. }
    assert (Data x ≠ Data xb) as Hdxb.
    { intros Heq. apply Hxb.
      apply (NoDup_fmap_eq Data (r :: rest)); [exact Hnd1|done..]. }
    destruct k as [|k]; [simpl in Hk; congruence|]. simpl in Hk.
    pose proof Ha as Ha'. rewrite Hp1 in Ha'.
    apply elem_of_cons in Ha' as [->|Ha'].
    { exists 0%nat. split; [lia|done]. }
    pose proof Hb as Hb'. rewrite Hp1 in Hb'.
    apply elem_of_cons in Hb' as [->|Hb']; [done|].
    destruct (IH rest1 c xa xb outs' (conj Hok' Hc) Ha' Hb' Hp Ho Hnd2
                 Hrun' k Hk) as (k' & ? & ?).
    exists (S k'). split; [lia|done].
Qed.

Lemma renumbered_at_bounds t ops q n :
  n ∈ renumbered_at t ops q → (t ≤ n < t + length ops)%nat.
Proof.
  revert t q. induction ops as [|[d p|] ops IH]; intros t q; simpl.
  - by intros ?%elem_of_nil.
  - intros [Hn|Hn]%elem_of_app.
    + case_decide; [|by apply elem_of_nil in Hn].
      apply list_elem_of_singleton in Hn. lia.
    + destruct (Enqueue q d p); [|by apply elem_of_nil in Hn].
      apply IH in Hn. lia.
  - destruct (Dequeue q) as [[? q']|]; [|by intros ?%elem_of_nil].
    intros Hn%IH. lia.
Qed.

Lemma renumbered_at_app t ops1 ops2 q :
  renumbered_at t (ops1 ++ ops2) q =
    renumbered_at t ops1 q ++
    match run ops1 q with
    | Some (_, q1) => renumbered_at (t + length ops1) ops2 q1
    | None => []
    end.
Proof.
  revert t q. induction ops1 as [|[d p|] ops1 IH]; intros t q.
  - simpl. by rewrite Nat.add_0_r.
  - rewrite <-app_comm_cons, run_Enq. simpl renumbered_at.
    destruct (Enqueue q d p) as [q1|]; simpl; [|by rewrite !app_nil_r].
    rewrite IH, <-app_assoc. do 3 f_equal.
    by replace (S t + length ops1)%nat with (t + S (length ops1))%nat by lia.
  - rewrite <-app_comm_cons, run_Deq. simpl renumbered_at.
    destruct (Dequeue q) as [[r q1]|]; simpl; [|done].
    rewrite IH.
    replace (S t + length ops1)%nat with (t + S (length ops1))%nat by lia.
    by destruct (run ops1 q1) as [[??]|].
Qed.

(** Items of one priority enqueued in a row, the counter not reaching its
    maximum: they are queued with consecutive sequence numbers. *)
Definition numbered (p c : Z) (ds : list (option D)) : list (Item D) :=
  imap (λ k d, mkItem p d (c + 1 + Z.of_nat k)) ds.

Lemma numbered_sorted p c ds : StronglySorted item_lt (numbered p c ds).
Proof.
  unfold numbered. revert c. induction ds as [|d ds IH]; intros c; simpl.
  { constructor. }
  constructor.
  - erewrite imap_ext; [apply (IH (c + 1))|].
    intros k x _; simpl. f_equal. lia.
  - apply Forall_lookup_2. intros i y. rewrite list_lookup_imap.
    destruct (ds !! i); [|done]. intros [= <-].
    unfold item_lt; simpl. lia.
Qed.

Lemma numbered_Data p c ds : Data <$> numbered p c ds = ds.
Proof.
  unfold numbered. apply list_eq. intros i.
  rewrite list_lookup_fmap, list_lookup_imap. by destruct (ds !! i).
Qed.

Lemma enqueue_same_priority ds p s rest c :
  ok_state s rest c → c + Z.of_nat (length ds) ≤ MaxUint64 →
  ∃ rest',
    run (enqueue_all ((λ d, (d, p)) <$> ds)) (mkQueue (s :: rest) c) =
      Some ([], mkQueue (s :: rest') (c + Z.of_nat (length ds))) ∧
    heap_ok (s :: rest') ∧ rest' ≡ₚ rest ++ numbered p c ds.
Proof.
  unfold numbered.
  revert rest c. induction ds as [|d ds IH]; intros rest c [Hok Hc] Hmax.
  { exists rest. simpl. rewrite Z.add_0_r, app_nil_r. done. }
  simpl length in Hmax.
  destruct (Enqueue_spec s rest c d p Hok Hc)
    as (rest1 & c1 & base & Henq & Hok1 & Hc1 & Hp & Hbase & Hc').
  assert (c ≠ MaxUint64) as Hne by lia.
  unfold requeued in Hbase. rewrite decide_False in Hbase by done.
  rewrite (Hc' Hne) in *. subst base.
  destruct (IH rest1 (c + 1)) as (rest' & Hrun & Hok' & Hp'); [done|lia|].
  exists rest'. unfold enqueue_all in *. rewrite !fmap_cons, run_Enq.
  cbn [fst snd]. rewrite Henq; simpl. rewrite Hrun. split_and!; [|done|].
  - do 3 f_equal. lia.
  - rewrite Hp', Hp, <-app_assoc. apply Permutation_app_head. simpl.
    rewrite Z.add_0_r. apply Permutation_skip.
    erewrite imap_ext; [done|].
    intros k x _; simpl. f_equal. lia.
Qed.

Lemma same_priority_in_order c0 ds p :
  0 ≤ c0 → c0 + Z.of_nat (length ds) ≤ MaxUint64 →
  ∃ q',
    run (enqueue_all ((λ d, (d, p)) <$> ds) ++ replicate (length ds) Deq)
        (mockNewQueue c0) =
      Some ((λ d, (d, None)) <$> ds, q') ∧
    Empty q' = true.
Proof.
  intros Hc0 Hmax. unfold mockNewQueue, NewHeap.
  assert (0 ≤ c0 < 2 ^ 64) as Hc by (unfold MaxUint64 in Hmax; lia).
  destruct (enqueue_same_priority ds p (mkItem 0 None 0) [] c0)
    as (rest & Hrun & Hok & Hp); [by apply NewQueue_ok|done|].
  simpl in Hp.
  destruct (drain_spec (mkItem 0 None 0) rest (c0 + Z.of_nat (length ds)) Hok)
    as (l & Hdrain & _ & Hl & Hs).
  assert (l = numbered p c0 ds) as ->.
  { apply sorted_perm_unique; [by rewrite Hl|done|apply numbered_sorted]. }
  assert (length rest = length ds) as Hlen.
  { rewrite (Permutation_length Hp). unfold numbered. by rewrite length_imap. }
  rewrite Hlen in Hdrain.
  exists (mkQueue [mkItem 0 None 0] (c0 + Z.of_nat (length ds))).
  rewrite run_app, Hrun; simpl. rewrite Hdrain; simpl.
  split; [|done]. do 2 f_equal.
  rewrite <-(numbered_Data p c0 ds) at 2. by rewrite <-list_fmap_compose.
Qed.

Lemma two_items_in_order c0 pre mid post da db p :
  0 ≤ c0 < 2 ^ 64 →
  NoDup (enqueued (pre ++ Enq da p :: mid ++ Enq db p :: post)) →
  (∀ t, t ∈ renumbered_at 0 (pre ++ Enq da p :: mid ++ Enq db p :: post)
                (mockNewQueue c0) →
        ¬ (length pre < t ≤ length pre + 1 + length mid)%nat) →
  ∃ outs q',
    run (pre ++ Enq da p :: mid ++ Enq db p :: post) (mockNewQueue c0) =
      Some (outs, q') ∧
    ∀ k, outs !! k = Some (db, None) →
         ∃ k', (k' < k)%nat ∧ outs !! k' = Some (da, None).
Proof.
  intros Hc0 Hnd Hre. unfold mockNewQueue, NewHeap in *.
  set (s0 := mkItem 0 None 0 : Item D) in *.
  (* the calls before the first of the two enqueues *)
  destruct (run_spec pre s0 [] c0) as (o1 & rest1 & c1 & Hrun1 & [Hok1 Hc1] & Hacc1);
    [by apply NewQueue_ok|].
  (* the first enqueue *)
  destruct (Enqueue_spec s0 rest1 c1 da p Hok1 Hc1)
    as (rest2 & c2 & base2 & Henq2 & Hok2 & Hc2 & Hp2 & Hbase2 & _).
  (* the calls between the two *)
  destruct (run_spec mid s0 rest2 c2) as (o2 & rest3 & c3 & Hrun3 & [Hok3 Hc3] & Hacc3);
    [done|].
  (* no renumbering in between, nor by the second enqueue *)
  rewrite renumbered_at_app, Hrun1 in Hre. simpl renumbered_at in Hre.
  rewrite Henq2, renumbered_at_app, Hrun3 in Hre. simpl renumbered_at in Hre.
  assert (renumbered_at (S (length pre)) mid (mkQueue (s0 :: rest2) c2) = [])
    as Hmid.
  { destruct (renumbered_at _ mid _) as [|t ts] eqn:Ht; [done|]. exfalso.
    assert (t ∈ renumbered_at (S (length pre)) mid (mkQueue (s0 :: rest2) c2))
      as Hin by (rewrite Ht; left).
    apply renumbered_at_bounds in Hin. apply (Hre t); [|lia].
    rewrite !elem_of_app. right. right. left. left. }
  assert (c3 ≠ MaxUint64) as Hc3'.
  { intros Heq. apply (Hre (S (length pre) + length mid)%nat); [|lia].
    rewrite !elem_of_app. do 3 right. left.
    rewrite decide_True by done. left. }
  (* the second enqueue *)
  destruct (Enqueue_spec s0 rest3 c3 db p Hok3 Hc3)
    as (rest4 & c4 & base4 & Henq4 & Hok4 & Hc4 & Hp4 & Hbase4 & Hc4').
  unfold requeued in Hbase4. rewrite decide_False in Hbase4 by done.
  subst base4. specialize (Hc4' Hc3').
  (* the calls after *)
  destruct (run_spec post s0 rest4 c4) as (o3 & rest5 & c5 & Hrun5 & _ & _);
    [done|].
  exists (o1 ++ o2 ++ o3), (mkQueue (s0 :: rest5) c5). split.
  { rewrite run_app, Hrun1; simpl. rewrite Henq2; simpl.
    rewrite run_app, Hrun3; simpl. rewrite Henq4; simpl.
    by rewrite Hrun5. }
  (* what has been handed in and out so far *)
  assert (dequeued o1 ++ dequeued o2 ++ (Data <$> rest3)
            ≡ₚ enqueued pre ++ da :: enqueued mid) as Hacc.
  { rewrite Hacc3, Hp2, fmap_app, (requeued_Data _ _ _ _ Hbase2).
    simpl. rewrite !app_assoc, Hacc1. simpl. by rewrite <-app_assoc. }
  rewrite !enqueued_app in Hnd. simpl in Hnd.
  change (enqueued (Enq da p :: mid ++ Enq db p :: post))
    with (da :: enqueued (mid ++ Enq db p :: post)) in Hnd.
  rewrite enqueued_app in Hnd.
  change (enqueued (Enq db p :: post)) with (db :: enqueued post) in Hnd.
  assert (NoDup ((dequeued o1 ++ dequeued o2) ++
                 (Data <$> rest3) ++ db :: enqueued post)) as Hnd'.
  { replace ((dequeued o1 ++ dequeued o2) ++
             (Data <$> rest3) ++ db :: enqueued post)
      with ((dequeued o1 ++ dequeued o2 ++ (Data <$> rest3)) ++
            db :: enqueued post) by (by rewrite <-!app_assoc).
    rewrite Hacc, <-app_assoc. exact Hnd. }
  apply NoDup_app in Hnd' as (_ & Hfresh & Hnd3).
  assert (db ∉ dequeued o1 ++ dequeued o2) as Hdb.
  { intros Hin. apply (Hfresh _ Hin). apply elem_of_app. right. left. }
  intros k Hk.
  assert (length o1 + length o2 ≤ k)%nat as Hge.
  { destruct (decide (length o1 + length o2 ≤ k)%nat); [done|]. exfalso.
    apply Hdb. rewrite <-dequeued_app. apply elem_of_dequeued.
    rewrite app_assoc in Hk. rewrite lookup_app_l in Hk
      by (rewrite length_app; lia).
    by eapply list_elem_of_lookup_2. }
  rewrite app_assoc, lookup_app_r in Hk by (rewrite length_app; lia).
  rewrite length_app in Hk.
  (* the first item: served in between, or still queued *)
  destruct (kept_until_dequeued mid (S (length pre)) s0 rest2 c2
              (mkItem p da c2) o2 (mkQueue (s0 :: rest3) c3)
              (conj Hok2 Hc2)) as [Hout|[Hin Hord]];
    [rewrite Hp2, elem_of_app; right; left|done|done|done| |].
  - apply elem_of_dequeued, list_elem_of_lookup in Hout as [k2 Hk2].
    pose proof (lookup_lt_Some _ _ _ Hk2).
    exists (length o1 + k2)%nat. split; [lia|].
    rewrite lookup_app_r by lia. rewrite lookup_app_l by lia.
    replace (length o1 + k2 - length o1)%nat with k2 by lia. exact Hk2.
  - simpl in Hin, Hord.
    destruct (pair_served_in_order post s0 rest4 c4 (mkItem p da c2)
                (mkItem p db c4) o3 (mkQueue (s0 :: rest5) c5)
                (conj Hok4 Hc4))
      with (k := (k - (length o1 + length o2))%nat) as (k' & Hlt & Hk');
      [rewrite Hp4, elem_of_app; by left
      |rewrite Hp4, elem_of_app; right; left
      |done|simpl; lia| |done|done|].
    { rewrite Hp4, fmap_app, <-app_assoc. done. }
    exists (length o1 + length o2 + k')%nat. split; [lia|].
    rewrite app_assoc, lookup_app_r by (rewrite length_app; lia).
    rewrite length_app.
    replace (length o1 + length o2 + k' - (length o1 + length o2))%nat
      with k' by lia.
    exact Hk'.
Qed.

(** C2. Stable tie-break.  On a queue created with any counter value:
    (1) in any sequence of calls, of two items enqueued with equal
    priority, no Enqueue renumbering after the first was enqueued and up
    to the enqueue of the second, the one enqueued first is dequeued
    first: wherever the payload of the second comes out, the payload of
    the first has come out before (payloads are taken distinct, to tell
    the items apart in the results); (2) N items of one priority enqueued
    in a row, the counter not reaching its maximum, and then drained come
    back in exact enqueue order. *)
Theorem stable_tie_break :
  (∀ c0 pre mid post da db p,
     0 ≤ c0 < 2 ^ 64 →
     NoDup (enqueued (pre ++ Enq da p :: mid ++ Enq db p :: post)) →
     (∀ t, t ∈ renumbered_at 0 (pre ++ Enq da p :: mid ++ Enq db p :: post)
                   (mockNewQueue c0) →
           ¬ (length pre < t ≤ length pre + 1 + length mid)%nat) →
     ∃ outs q',
       run (pre ++ Enq da p :: mid ++ Enq db p :: post) (mockNewQueue c0) =
         Some (outs, q') ∧
       ∀ k, outs !! k = Some (db, None) →
            ∃ k', (k' < k)%nat ∧ outs !! k' = Some (da, None)) ∧
  (∀ c0 ds p,
     0 ≤ c0 → c0 + Z.of_nat (length ds) ≤ MaxUint64 →
     ∃ q',
       run (enqueue_all ((λ d, (d, p)) <$> ds) ++ replicate (length ds) Deq)
           (mockNewQueue c0) =
         Some ((λ d, (d, None)) <$> ds, q') ∧
       Empty q' = true).
Proof.
  split.
  - intros. by apply two_items_in_order.
  - intros. by apply same_priority_in_order.
Qed.

(** C5. Empty-queue signalling: Dequeue on an empty queue does not panic
    and returns the error value (with a nil payload); at the heap layer
    Pop on an empty heap returns nil; a newly constructed queue is such a
    queue: Empty is true, Len is 0 and Dequeue returns the error. *)
Theorem empty_queue_signal q :
  Empty q = true →
  (∃ q', Dequeue q = Some ((None, Some "pop an empty queue"%string), q')) ∧
  (∃ h', Pop (heap q) = Some (None, h')) ∧
  Empty (D:=D) NewQueue = true ∧ Len (D:=D) NewQueue = 0 ∧
  ∃ q', Dequeue (D:=D) NewQueue =
          Some ((None, Some "pop an empty queue"%string), q').
Proof.
  intros He. unfold Empty, heap.Empty in He.
  apply bool_decide_eq_true_1 in He.
  split_and!; [|by eexists; apply Pop_empty|done|done|by eexists].
  unfold Dequeue. rewrite (Pop_empty _ He); simpl. by eexists.
Qed.

(** C10. Dequeue on an empty queue returns nil as the payload together
    with an error and leaves the queue as it was: the heap array, its
    length and the sequence counter are those before the call; Pop on an
    empty heap likewise returns the slice unchanged. *)
Theorem empty_dequeue_no_change q :
  Empty q = true →
  (∃ e q', Dequeue q = Some ((None, Some e), q') ∧ q' = q ∧
           heap q' = heap q ∧ length (heap q') = length (heap q) ∧
           count q' = count q) ∧
  Pop (heap q) = Some (None, heap q).
Proof.
  intros He. unfold Empty, heap.Empty in He.
  apply bool_decide_eq_true_1 in He.
  split; [|by apply Pop_empty].
  unfold Dequeue. rewrite (Pop_empty _ He); simpl.
  eexists _, _. split; [done|]. by destruct q.
Qed.

End queue_facts.

(** Witnesses. *)
Lemma empty_queue_signal_witness :
  ∃ q', Dequeue (mockNewQueue (D:=nat) 7) =
          Some ((None, Some "pop an empty queue"%string), q').
Proof. exact (proj1 (empty_queue_signal (mockNewQueue 7) eq_refl)). Defined.

(** One item is enqueued and two Dequeues follow: the first of them finds
    the item. *)
Lemma count_consistency_witness :
  ∃ outs1 q1 r q2,
    run [Enq (Some 7%nat) 1] NewQueue = Some (outs1, q1) ∧
    Dequeue q1 = Some (r, q2) ∧
    Len q1 = 1 - 0 ∧
    (r.2 = None ↔ 0 < Len q1) ∧
    Len q2 = match r.2 with None => Len q1 - 1 | Some _ => Len q1 end.
Proof.
  destruct (count_consistency [Enq (Some 7%nat) 1; Deq; Deq])
    as (outs & q' & _ & _ & Hat).
  destruct (Hat [Enq (Some 7%nat) 1] [Deq] eq_refl)
    as (outs1 & q1 & r & q2 & outs2 & H1 & H2 & _ & _ & H3 & H4 & H5).
  assert (outs1 = []) as -> by (vm_compute in H1; by simplify_eq).
  by exists [], q1, r, q2.
Defined.

Lemma empty_dequeue_no_change_witness :
  Pop (heap (NewQueue (D:=nat))) = Some (None, heap NewQueue).
Proof. exact (proj2 (empty_dequeue_no_change NewQueue eq_refl)). Defined.

(** The counter starts one below its maximum: the second Enqueue, of the
    first item of priority 5, renumbers; nothing renumbers from there to
    the Enqueue of the second item of priority 5. *)
Lemma stable_tie_break_witness :
  (∃ outs q',
     run ([Enq (Some 0%nat) 7] ++ Enq (Some 1%nat) 5 ::
          [Enq (Some 2%nat) 3; Deq] ++ Enq (Some 3%nat) 5 :: [Deq; Deq; Deq])
         (mockNewQueue (2 ^ 64 - 2)) = Some (outs, q') ∧
     ∀ k, outs !! k = Some (Some 3%nat, None) →
          ∃ k', (k' < k)%nat ∧ outs !! k' = Some (Some 1%nat, None)) ∧
  (∃ q',
     run (enqueue_all ((λ d, (d, 4)) <$> [Some 7%nat; Some 8%nat; Some 9%nat])
          ++ replicate 3 Deq) (mockNewQueue 0) =
       Some ((λ d, (d, None)) <$> [Some 7%nat; Some 8%nat; Some 9%nat], q') ∧
     Empty q' = true).
Proof.
  split.
  - apply (proj1 (@stable_tie_break nat) (2 ^ 64 - 2) [Enq (Some 0%nat) 7]
             [Enq (Some 2%nat) 3; Deq] [Deq; Deq; Deq] (Some 1%nat)
             (Some 3%nat) 5).
    + lia.
    + eapply (bool_decide_unpack _). vm_compute. exact I.
    + intros t Ht. vm_compute in Ht.
      apply list_elem_of_singleton in Ht. subst t. simpl. lia.
  - apply (proj2 (@stable_tie_break nat) 0
             [Some 7%nat; Some 8%nat; Some 9%nat] 4).
    + lia.
    + vm_compute. discriminate.
Defined.

Lemma renumbering_keeps_order_witness :
  let s := mkItem 0 (None : option nat) 0 in
  let rest := [mkItem 1 (Some 10%nat) 5; mkItem 1 (Some 11%nat) 9;
               mkItem 1 (Some 12%nat) 7] in
  heap_ok (s :: rest) ∧
  ∃ l c rest1 c' rest',
    pop_all (length rest) (s :: rest) = Some (l, [s]) ∧
    ReOrder (s :: rest) = Some (c, s :: rest1) ∧
    pop_all (length rest1) (s :: rest1) = Some (renumber l, [s]) ∧
    Order <$> renumber l = Z.of_nat <$> seq 0 (length rest) ∧
    task <$> renumber l = task <$> l ∧
    Enqueue (mkQueue (s :: rest) MaxUint64) (Some 13%nat) 1 =
      Some (mkQueue (s :: rest') c') ∧
    ∃ l1 l2,
      pop_all (length rest') (s :: rest') =
        Some (l1 ++ mkItem 1 (Some 13%nat) c' :: l2, [s]) ∧
      l1 ++ l2 = renumber l.
Proof.
  intros s rest.
  assert (heap_ok (s :: rest)) as Hok.
  { intros i Hi. unfold heap.Len in Hi; simpl in Hi.
    assert (i = 2 ∨ i = 3) as [-> | ->] by lia; reflexivity. }
  split; [exact Hok|].
  exact (renumbering_keeps_order s rest (Some 13%nat) 1 Hok).
Defined.

(** A heap of three items in heap order, with priorities 1, 3 and 2. *)
Definition heap_1_3_2 : ItemHeap nat :=
  [mkItem 0 None 0; mkItem 1 (Some 1%nat) 1; mkItem 3 (Some 2%nat) 2;
   mkItem 2 (Some 3%nat) 3].

Lemma heap_1_3_2_ok : 0 < heap.Len heap_1_3_2 ∧ heap_ok heap_1_3_2.
Proof.
  split; [done|]. intros i Hi. unfold heap.Len in Hi; simpl in Hi.
  assert (i = 2 ∨ i = 3) as [-> | ->] by lia; reflexivity.
Qed.

(** C4, as stated, fails: read to the letter, the sifting swaps with the
    smaller child at every step.  After Pop has moved the item of priority
    2 to the root, the source leaves it above the item of priority 3;
    swapping regardless puts 3 above 2. *)
Lemma Pop_words_differs :
  ¬ (∀ h : ItemHeap nat,
       0 < heap.Len h → heap_ok h → Pop h = Pop_words h).
Proof.
  intros H. destruct heap_1_3_2_ok as [Hn Hok].
  specialize (H heap_1_3_2 Hn Hok). vm_compute in H. discriminate.
Qed.

Lemma Pop_steps_witness :
  Pop heap_1_3_2 = Pop_amended heap_1_3_2 ∧
  ∃ x h', Pop heap_1_3_2 = Some (Some x, h') ∧
          index heap_1_3_2 1 = Some x ∧
          ∀ k y, 1 ≤ k → index heap_1_3_2 k = Some y →
                 item_less y x = false.
Proof.
  apply Pop_steps.
  - done.
  - intros i Hi. unfold heap.Len in Hi; simpl in Hi.
    assert (i = 2 ∨ i = 3) as [-> | ->] by lia; reflexivity.
Defined.

(** * DecorateChannel *)

(** One task arrives.  The ingestion goroutine enqueues it; before it
    signals, the emission goroutine locks, pops the item, sends it, comes
    round, finds the queue empty and parks in [cond.Wait()]; the signal
    meant for the item already served then wakes it. *)
Definition one_task : list (channel.Task nat) :=
  [channel.mkTask (Some 7%nat) 3].

Definition stale_signal : list channel.goroutine :=
  [channel.Ingest; channel.Ingest;
   channel.Emit; channel.Emit; channel.Emit; channel.Emit;
   channel.Emit; channel.Emit;
   channel.Ingest;
   channel.Emit; channel.Emit].

(** C8. The emission goroutine tests the emptiness of the queue once
    ([if], not a loop) around [cond.Wait()], so it does not wait while the
    queue is empty: under the schedule [stale_signal] it is woken with the
    queue empty, pops it all the same, gets nil and panics, after the only
    task has been sent on.  The panic is the assertion of the source that
    this cannot happen. *)
Theorem stale_signal_panics :
  ∃ before st,
    channel.exec (take 10 stale_signal) (channel.start one_task)
      = Some before ∧
    channel.emit before = channel.EPop ∧
    Empty (channel.pq before) = true ∧
    channel.step channel.Emit before = Some st ∧
    channel.emit st = channel.EPanic ∧
    channel.outChan st = [Some 7%nat] ∧
    channel.exec stale_signal (channel.start one_task) = Some st.
Proof.
  eexists _, _. split_and!; [vm_compute; reflexivity|..]; reflexivity.
Qed.

(** * Further properties of package heap *)
(** ** Index arithmetic in 64 bits *)

(** Go's [int] on a 64-bit platform: the result of a multiplication or an
    addition is reduced to the two's complement range; the division by 2
    cannot leave it. *)
Module int64.
Definition wrap (z : Z) : Z := (z + 2 ^ 63) `mod` 2 ^ 64 - 2 ^ 63.
Definition parent (k : Z) : Z := wrap (k `quot` 2).
Definition leftChild (k : Z) : Z := wrap (k * 2).
Definition rightChild (k : Z) : Z := wrap (wrap (k * 2) + 1).
End int64.

Section heap_more.
Context {D : Type}.
Implicit Types (h : ItemHeap D) (a b x y z : Item D) (i j k : Z).

Lemma index_None h i : index h i = None ↔ ¬ (0 ≤ i ≤ heap.Len h).
Proof.
  split.
  - intros Hn Hi. destruct (index_in_range h i Hi) as [a Ha]. congruence.
  - intros Hi. destruct (index h i) as [a|] eqn:Ha; [|done].
    by apply index_range in Ha.
Qed.

Lemma index_ext h1 h2 : (∀ k, index h1 k = index h2 k) → h1 = h2.
Proof.
  intros H. apply list_eq. intros n. specialize (H (Z.of_nat n)).
  unfold index in H. rewrite !decide_True in H by lia.
  by rewrite Nat2Z.id in H.
Qed.


(** X2. Less and Swap panic exactly when one of the two indices is
    negative or beyond the last element. *)
Theorem Less_Swap_bounds h i j :
  (Less h i j = None ↔ ¬ (0 ≤ i ≤ heap.Len h ∧ 0 ≤ j ≤ heap.Len h)) ∧
  (Swap h i j = None ↔ ¬ (0 ≤ i ≤ heap.Len h ∧ 0 ≤ j ≤ heap.Len h)).
Proof.
  unfold Less, Swap.
  destruct (index h i) as [a|] eqn:Ha, (index h j) as [b|] eqn:Hb; simpl.
  - apply index_range in Ha, Hb. split; (split; [done|tauto]).
  - apply index_None in Hb. split; (split; [tauto|done]).
  - apply index_None in Ha. split; (split; [tauto|done]).
  - apply index_None in Ha. split; (split; [tauto|done]).
Qed.

(** X3. Swap keeps the length, does not depend on the order of its two
    indices, and undoes itself: swapping the same two slots again gives
    the slice back. *)
Theorem Swap_involutive h i j h' :
  Swap h i j = Some h' →
  length h' = length h ∧ Swap h j i = Some h' ∧ Swap h' i j = Some h.
Proof.
  intros Hsw. pose proof (Swap_Len _ _ _ _ Hsw) as Hlen.
  pose proof Hsw as (a & b & Ha & Hb & _)%Swap_Some.
  pose proof (index_range _ _ _ Ha). pose proof (index_range _ _ _ Hb).
  split_and!.
  - unfold heap.Len in Hlen. lia.
  - destruct (Swap_in_range h j i) as [h2 Hsw2]; [lia..|].
    rewrite Hsw2. f_equal. apply index_ext. intros k.
    rewrite (index_Swap _ _ _ _ _ Hsw), (index_Swap _ _ _ _ _ Hsw2).
    repeat case_decide; congruence.
  - destruct (Swap_in_range h' i j) as [h2 Hsw2]; [lia..|].
    rewrite Hsw2. f_equal. apply index_ext. intros k.
    rewrite (index_Swap _ _ _ _ _ Hsw2), !(index_Swap _ _ _ _ _ Hsw).
    repeat case_decide; congruence.
Qed.

(** X4. The index arithmetic makes the slice a binary tree, and does so
    in 64-bit integers up to index [2^62] only.  Below that bound the
    wrapped arithmetic is the exact one, both children of [k] have [k] as
    parent, and every index is the left or the right child of its parent.
    From [2^62] on the doubling wraps around: the children come out
    negative and the parent of the left child is no longer [k]. *)
Theorem parent_of_child k :
  0 ≤ k < 2 ^ 62 →
  (int64.parent k = parent k ∧ int64.leftChild k = leftChild k ∧
   int64.rightChild k = rightChild k) ∧
  (int64.parent (int64.leftChild k) = k ∧
   int64.parent (int64.rightChild k) = k ∧
   (int64.leftChild (int64.parent k) = k ∨
    int64.rightChild (int64.parent k) = k)) ∧
  (int64.leftChild (k + 2 ^ 62) < 0 ∧ int64.rightChild (k + 2 ^ 62) < 0 ∧
   int64.parent (int64.leftChild (k + 2 ^ 62)) ≠ k + 2 ^ 62).
Proof.
  intros Hk.
  unfold int64.parent, int64.leftChild, int64.rightChild, int64.wrap.
  split_and!; zlia.
Qed.


(** X6. Pop panics exactly on the zero-length slice, the one without the
    dummy at index 0 (there Len is -1, so Empty is false and the swap
    indexes out of range); on every other slice it returns nil when only
    the dummy is left, and an element otherwise. *)
Theorem Pop_panics_iff h :
  (Pop h = None ↔ h = []) ∧
  (heap.Len h = 0 → Pop h = Some (None, h)) ∧
  (0 < heap.Len h → ∃ x h', Pop h = Some (Some x, h')).
Proof.
  split_and!.
  - destruct h as [|s rest]; [done|]. pose proof (Pop_frame s rest) as Hpop.
    destruct rest; [by rewrite Hpop|].
    destruct Hpop as (x & rest' & -> & _). done.
  - apply Pop_empty.
  - intros Hn. destruct (Pop_spec h Hn) as (x & h' & Hpop & _). eauto.
Qed.

(** X7. On a heap in heap order the sifting has nothing to do: [up] and
    [down] called on any slot return the slice as it is. *)
Theorem sift_keeps_ordered h j :
  heap_ok h → 1 ≤ j ≤ heap.Len h →
  up h j = Some h ∧ down h j = Some h.
Proof.
  intros Hok Hj. split.
  - rewrite up_unfold; cbv zeta. case_decide; [|done].
    by rewrite (Hok j) by lia.
  - rewrite down_unfold; cbv zeta. case_decide; [done|].
    destruct (smaller_child_pick h j) as (sc & s & -> & Hsc & Hn & Hs & _);
      [lia..|]; simpl.
    rewrite decide_True by done.
    assert (parent sc = j ∧ 2 ≤ sc) as [Hp H2] by (destruct Hsc; zlia).
    specialize (Hok sc ltac:(lia)). rewrite Hp in Hok. by rewrite Hok.
Qed.

End heap_more.

Section heap_compose.
Context {D : Type}.
Implicit Types (h : ItemHeap D) (a b x y z s r : Item D) (i j k : Z).
Implicit Types (rest l : list (Item D)).

(** [up] does not replace the root by an item that does not compare less
    than it. *)
Lemma up_root_kept h j x r h' :
  index h j = Some x → index h 1 = Some r → item_less x r = false →
  up h j = Some h' → index h' 1 = Some r.
Proof.
  remember (Z.to_nat j) as m eqn:Hm. revert h j Hm.
  induction m as [m IH] using lt_wf_ind. intros h j -> Hx Hr Hlt.
  rewrite up_unfold; cbv zeta.
  destruct (decide (j > 1)) as [Hj|]; [|by intros [= <-]].
  destruct (Less h j (parent j)) as [[]|] eqn:Hless; simpl;
    [|by intros [= <-]|done].
  destruct (Swap h (parent j) j) as [h1|] eqn:Hsw; simpl; [|done].
  apply Less_Some in Hless as (x' & b & Hx' & Hb & Hxb). simplify_eq.
  destruct (decide (parent j = 1)) as [Hp|Hp].
  { rewrite Hp in Hb. simplify_eq. congruence. }
  apply (IH (Z.to_nat (parent j))); [zlia|done| | |done].
  - rewrite (index_Swap _ _ _ _ _ Hsw). by rewrite decide_True.
  - rewrite (index_Swap _ _ _ _ _ Hsw). by rewrite !decide_False by zlia.
Qed.

(** X8. Push followed by Pop, on a heap in heap order: neither panics, and
    the Pop hands back the pushed item exactly when it compares less than
    the old root, and the old root otherwise (on ties too); on an empty
    heap the pushed item comes back and the heap is as before.  The
    elements left are the old ones and the pushed one, less the one handed
    back, in heap order. *)
Theorem Push_then_Pop s rest x :
  heap_ok (s :: rest) →
  ∃ h1 y rest2,
    Push (s :: rest) (ItemPtr x) = Some h1 ∧
    Pop h1 = Some (Some y, s :: rest2) ∧
    y = match rest with
        | [] => x
        | r :: _ => if item_less x r then x else r
        end ∧
    rest ++ [x] ≡ₚ y :: rest2 ∧ heap_ok (s :: rest2) ∧
    (rest = [] → rest2 = []).
Proof.
  intros Hok.
  destruct (Push_frame s rest x) as (rest1 & Hpush & Hp1 & Hok1).
  pose proof (Pop_frame s rest1) as Hpop.
  destruct rest1 as [|r1 rest1].
  { apply Permutation_nil_l in Hp1. by destruct rest. }
  destruct Hpop as (y & rest2 & Hpop & Hp2 & Hhd & Hmin).
  destruct (Hmin (Hok1 Hok)) as [Hok2 Hle].
  exists (s :: r1 :: rest1), y, rest2.
  split_and!; [done..| |by rewrite <-Hp1|done|].
  - simpl in Hhd. simplify_eq.
    pose proof (Pop_frame s rest) as Hpop0.
    destruct rest as [|r rest0].
    { apply Permutation_singleton_r in Hp1. by simplify_eq. }
    destruct Hpop0 as (r' & ? & _ & _ & Hhd0 & Hmin0). simpl in Hhd0.
    simplify_eq. destruct (Hmin0 Hok) as [_ Hler].
    destruct (item_less x r') eqn:Hlt.
    + assert (y ∈ (r' :: rest0) ++ [x]) as [Hy|Hy]%elem_of_app
        by (rewrite <-Hp1; left).
      * rewrite Forall_forall in Hle, Hler. specialize (Hler _ Hy).
        assert (x ∈ y :: rest1) as Hx
          by (rewrite Hp1, elem_of_app; right; left).
        specialize (Hle _ Hx). item_order.
      * by apply list_elem_of_singleton in Hy.
    + assert (index (s :: y :: rest1) 1 = Some r') as Hroot;
        [|by injection Hroot].
      unfold Push in Hpush.
      eapply (up_root_kept _ _ x r'); [| |done|exact Hpush].
      * rewrite index_app, decide_True; [done|].
        unfold heap.Len. rewrite length_app; simpl. lia.
      * rewrite index_app, decide_False; [done|].
        unfold heap.Len; simpl. lia.
  - intros ->. apply Permutation_length in Hp1, Hp2. simpl in Hp1, Hp2.
    destruct rest2; [done|simpl in Hp2; lia].
Qed.

Lemma calls_app cs1 cs2 h :
  calls (cs1 ++ cs2) h =
    '(r1, h1) ← calls cs1 h; '(r2, h2) ← calls cs2 h1; Some (r1 ++ r2, h2).
Proof.
  revert h. induction cs1 as [|[x|] cs1 IH]; intros h; simpl.
  - by destruct (calls cs2 h) as [[??]|].
  - destruct (Push h (ItemPtr x)) as [h1|]; simpl; [apply IH|done].
  - destruct (Pop h) as [[r h1]|]; simpl; [|done]. rewrite IH.
    destruct (calls cs1 h1) as [[r1 h2]|]; simpl; [|done].
    by destruct (calls cs2 h2) as [[??]|].
Qed.

Lemma calls_DoPush x cs h :
  calls (DoPush x :: cs) h = h' ← Push h (ItemPtr x); calls cs h'.
Proof. done. Qed.

Lemma calls_DoPop cs h :
  calls (DoPop :: cs) h =
    '(r, h') ← Pop h; '(rs, h'') ← calls cs h'; Some (r :: rs, h'').
Proof. done. Qed.

Lemma calls_push_all l s rest :
  ∃ rest', calls (DoPush <$> l) (s :: rest) = Some ([], s :: rest') ∧
           rest' ≡ₚ rest ++ l ∧ (heap_ok (s :: rest) → heap_ok (s :: rest')).
Proof.
  revert rest. induction l as [|x l IH]; intros rest.
  { exists rest. by rewrite app_nil_r. }
  rewrite fmap_cons, calls_DoPush.
  destruct (Push_frame s rest x) as (rest1 & -> & Hp & Hok); simpl.
  destruct (IH rest1) as (rest' & -> & Hp' & Hok').
  exists rest'. split_and!; [done| |by auto].
  by rewrite Hp', Hp, <-app_assoc.
Qed.

Lemma calls_pop_all s rest :
  heap_ok (s :: rest) →
  ∃ l, calls (replicate (length rest) DoPop) (s :: rest) =
         Some (Some <$> l, [s]) ∧
       l ≡ₚ rest ∧ StronglySorted (λ a b, item_less b a = false) l.
Proof.
  remember (length rest) as n eqn:Hn. revert rest Hn.
  induction n as [|n IH]; intros rest Hn Hok; simpl.
  { destruct rest; [|done]. exists []. split_and!; [done..|constructor]. }
  pose proof (Pop_frame s rest) as Hpop.
  destruct rest as [|r rest]; [done|].
  destruct Hpop as (x & rest' & -> & Hp & _ & Hok'); simpl.
  destruct (Hok' Hok) as [Hok1 Hmin].
  destruct (IH rest') as (l & -> & Hl & Hs); [|done|]; simpl.
  { apply Permutation_length in Hp. simpl in *. lia. }
  exists (x :: l). split_and!; [done|by rewrite Hl|].
  constructor; [done|]. rewrite Hl.
  rewrite Hp in Hmin. apply Forall_cons in Hmin as [_ Hmin].
  eapply Forall_impl; [done|]. intros y Hy. by apply item_less_false.
Qed.

(** X9. Heap sort: any items pushed on a new heap and then popped, as
    many Pops as Pushes, come back without panic as a rearrangement of
    the items in comparator order (no item compares less than one popped
    before it), and the heap is the new heap again. *)
Theorem push_all_pop_all (l : list (Item D)) :
  ∃ sorted,
    calls ((DoPush <$> l) ++ replicate (length l) DoPop) NewHeap =
      Some (Some <$> sorted, NewHeap) ∧
    sorted ≡ₚ l ∧
    StronglySorted (λ a b, item_less b a = false) sorted.
Proof.
  unfold NewHeap.
  destruct (calls_push_all l (mkItem 0 None 0) [])
    as (rest & Hpush & Hp & Hok).
  assert (heap_ok ([mkItem 0 None 0] : ItemHeap D)) as Hok0.
  { intros k Hk. unfold heap.Len in Hk; simpl in Hk. lia. }
  destruct (calls_pop_all (mkItem 0 None 0) rest (Hok Hok0))
    as (sorted & Hpop & Hs & Hss).
  simpl in Hp.
  exists sorted. split_and!; [|by rewrite Hs, Hp|done].
  rewrite calls_app, Hpush; simpl.
  rewrite <-(Permutation_length Hp), Hpop. done.
Qed.

End heap_compose.

(** * The test helper of package heap *)
Module heap_test.
Section Defs.
Context {D : Type}.

(** [verify] walks the tree below [i] and reports with [t.Errorf] every
    child found to compare less than its parent, leaving at the first
    report of a call.  The result is the number of reports; [t] is not
    modelled otherwise.

    [None] stands for a call that does not return: for a negative [i] the
    first Less indexes out of range and panics, and on a non-empty heap
    [verify(t, 0)] calls itself with 0 again without end.  The test file
    only calls [verify(t, 1)]. *)
Equations? verify (h : ItemHeap D) (i : Z) : option nat
  by wf (Z.to_nat (heap.Len h - i)) lt :=
verify h i with decide (i < 0 ∨ (i = 0 ∧ 0 < heap.Len h)) := {
  | left _ => None
  | right Hi =>
      let n := heap.Len h in
      let j1 := 2 * i in
      let j2 := 2 * i + 1 in
      r1 ← match decide (j1 < n) with
           | left H1 =>
               lt ← Less h j1 i;
               if lt : bool then Some (inl 1%nat)
               else e ← verify h j1; Some (inr e)
           | right _ => Some (inr 0%nat)
           end;
      match r1 with
      | inl e => Some e
      | inr e1 =>
          match decide (j2 < n) with
          | left H2 =>
              lt ← Less h j2 i;
              if lt : bool then Some (e1 + 1)%nat
              else e ← verify h j2; Some (e1 + e)%nat
          | right _ => Some e1
          end
      end }.
Proof. all: lia. Qed.

End Defs.
End heap_test.

Section verify_facts.
Context {D : Type}.
Implicit Types (h : ItemHeap D) (i j k : Z).
Import heap_test.

(** [k] lies in the tree below [i]. *)
Inductive below (i : Z) : Z → Prop :=
| below_child k : 2 ≤ k → parent k = i → below i k
| below_step k : 2 ≤ k → below i (parent k) → below i k.

Lemma below_ge i k : 1 ≤ i → below i k → 2 * i ≤ k.
Proof. intros Hi. induction 1; zlia. Qed.

Lemma below_cases i k :
  1 ≤ i → below i k →
  k = 2 * i ∨ k = 2 * i + 1 ∨ below (2 * i) k ∨ below (2 * i + 1) k.
Proof.
  intros Hi. induction 1 as [k Hk Hp|k Hk Hb IH]; [zlia|].
  destruct IH as [Heq|[Heq|[IH|IH]]].
  - right. right. left. by apply below_child.
  - right. right. right. by apply below_child.
  - right. right. left. by apply below_step.
  - right. right. right. by apply below_step.
Qed.

Lemma below_down i j k :
  1 ≤ i → j = 2 * i ∨ j = 2 * i + 1 → below j k → below i k.
Proof.
  intros Hi Hj. induction 1 as [k Hk Hp|k Hk Hb IH].
  - apply below_step; [done|]. rewrite Hp. apply below_child; zlia.
  - by apply below_step.
Qed.

Lemma below_root k : 2 ≤ k → below 1 k.
Proof.
  remember (Z.to_nat k) as m eqn:Hm. revert k Hm.
  induction m as [m IH] using lt_wf_ind. intros k -> Hk.
  destruct (decide (parent k = 1)); [by apply below_child|].
  apply below_step; [done|].
  apply (IH (Z.to_nat (parent k))); [zlia|done|zlia].
Qed.

Lemma verify_unfold h i :
  1 ≤ i →
  verify h i =
    let n := heap.Len h in
    let j1 := 2 * i in
    let j2 := 2 * i + 1 in
    r1 ← (if decide (j1 < n) then
            lt ← Less h j1 i;
            if lt : bool then Some (inl 1%nat)
            else e ← verify h j1; Some (inr e)
          else Some (inr 0%nat));
    match r1 with
    | inl e => Some e
    | inr e1 =>
        if decide (j2 < n) then
          lt ← Less h j2 i;
          if lt : bool then Some (e1 + 1)%nat
          else e ← verify h j2; Some (e1 + e)%nat
        else Some e1
    end.
Proof.
  intros Hi. simp verify.
  destruct (decide (i < 0 ∨ i = 0 ∧ 0 < heap.Len h)) as [?|?]; [lia|].
  simp verify. cbv zeta. by repeat case_decide.
Qed.

Lemma verify_spec h i :
  1 ≤ i →
  ∃ e, verify h i = Some e ∧
       (e = 0%nat ↔
        ∀ k, below i k → k < heap.Len h → Less h k (parent k) = Some false).
Proof.
  remember (Z.to_nat (heap.Len h - i)) as m eqn:Hm. revert i Hm.
  induction m as [m IH] using lt_wf_ind. intros i -> Hi.
  rewrite verify_unfold by done; cbv zeta.
  assert (∀ j b, j = 2 * i ∨ j = 2 * i + 1 → Less h j i = Some b →
                 Less h j (parent j) = Some b) as Hpar.
  { intros j b Hj. by replace (parent j) with i by zlia. }
  destruct (decide (2 * i < heap.Len h)) as [H1|H1]; last first.
  { simpl. rewrite decide_False by lia. exists 0%nat. split; [done|].
    split; [|done]. intros _ k Hb%below_ge Hk; lia. }
  destruct (index_in_range h i) as [a Ha]; [lia|].
  destruct (index_in_range h (2 * i)) as [a1 Ha1]; [lia|].
  assert (Less h (2 * i) i = Some (item_less a1 a)) as Hl1
    by (unfold Less; by rewrite Ha1, Ha).
  rewrite Hl1; simpl. destruct (item_less a1 a) eqn:Hlt1; simpl.
  { exists 1%nat. split; [done|]. split; [done|]. intros Hall.
    pose proof (Hall (2 * i) ltac:(apply below_child; zlia) H1) as Hf.
    pose proof (Hpar _ _ (or_introl eq_refl) Hl1). congruence. }
  destruct (IH (Z.to_nat (heap.Len h - 2 * i)) ltac:(lia) (2 * i) eq_refl)
    as (e1 & -> & He1); [lia|]; simpl.
  destruct (decide (2 * i + 1 < heap.Len h)) as [H2|H2].
  - destruct (index_in_range h (2 * i + 1)) as [a2 Ha2]; [lia|].
    assert (Less h (2 * i + 1) i = Some (item_less a2 a)) as Hl2
      by (unfold Less; by rewrite Ha2, Ha).
    rewrite Hl2; simpl. destruct (item_less a2 a) eqn:Hlt2; simpl.
    { exists (e1 + 1)%nat. split; [done|]. split; [lia|]. intros Hall.
      pose proof (Hall (2 * i + 1) ltac:(apply below_child; zlia) H2) as Hf.
      pose proof (Hpar _ _ (or_intror eq_refl) Hl2). congruence. }
    destruct (IH (Z.to_nat (heap.Len h - (2 * i + 1))) ltac:(lia)
                 (2 * i + 1) eq_refl) as (e2 & -> & He2); [lia|]; simpl.
    exists (e1 + e2)%nat. split; [done|]. split.
    + intros Hz. assert (e1 = 0%nat ∧ e2 = 0%nat) as [Hz1 Hz2] by lia.
      intros k Hb Hk.
      destruct (below_cases i k Hi Hb) as [->|[->|[Hb'|Hb']]].
      * apply Hpar; [auto|done].
      * apply Hpar; [auto|done].
      * by apply He1.
      * by apply He2.
    + intros Hall.
      assert (e1 = 0%nat) as ->
        by (apply He1; intros k Hb Hk; apply Hall;
            [by eapply below_down; [| |done]; auto|done]).
      apply He2. intros k Hb Hk. apply Hall; [|done].
      eapply below_down; [| |done]; auto.
  - exists e1. split; [done|]. rewrite He1. split; intros Hall k Hb Hk.
    + destruct (below_cases i k Hi Hb) as [->|[->|[Hb'|Hb']]].
      * apply Hpar; [auto|done].
      * lia.
      * by apply Hall.
      * apply below_ge in Hb'; lia.
    + apply Hall; [|done]. eapply below_down; [| |done]; auto.
Qed.

(** X10. The test helper: [verify(t, 1)] returns on every slice without
    panic, and it reports nothing exactly when every slot from 2 up to,
    but not including, the last one ([j < n], not [j <= n]) holds an item
    that does not compare less than its parent: a heap in heap order
    passes, and a pass says nothing of the last element. *)
Theorem verify_passes_iff h :
  ∃ e, verify h 1 = Some e ∧
       (e = 0%nat ↔
        ∀ k, 2 ≤ k < heap.Len h → Less h k (parent k) = Some false).
Proof.
  destruct (verify_spec h 1) as (e & He & Hiff); [done|].
  exists e. split; [done|]. rewrite Hiff. split.
  - intros Hall k [Hk Hn]. apply Hall; [by apply below_root|done].
  - intros Hall k Hb Hn. apply Hall. apply below_ge in Hb; lia.
Qed.

End verify_facts.

(** * Further properties of package requestpq *)
Section queue_more.
Context {D : Type}.
Implicit Types (q : Queue D) (s x y : Item D) (rest l : list (Item D)).
Implicit Types (ops : list (op D)) (c : Z).

(** X11. After any sequence of calls on a new queue, however Enqueues and
    Dequeues were interleaved: if the queue is empty, Dequeue returns the
    error and changes nothing; otherwise it returns, without error, the
    payload of a queued item whose priority is the least of all queued
    items, removes that item and no other, and leaves the counter
    alone. *)
Theorem Dequeue_least_priority ops :
  ∃ outs q,
    run ops NewQueue = Some (outs, q) ∧
    (Empty q = true →
       Dequeue q = Some ((None, Some "pop an empty queue"%string), q)) ∧
    (Empty q = false →
       ∃ x q', Dequeue q = Some ((Data x, None), q') ∧
         tail (heap q) ≡ₚ x :: tail (heap q') ∧
         Forall (λ y, Priority x ≤ Priority y) (tail (heap q)) ∧
         count q' = count q ∧ Len q' = Len q - 1).
Proof.
  destruct (run_spec ops (mkItem 0 None 0) [] 0)
    as (outs & rest & c & Hrun & [Hok Hc] & _); [by apply NewQueue_ok|].
  exists outs, (mkQueue (mkItem 0 None 0 :: rest) c). split; [exact Hrun|].
  pose proof (Dequeue_spec (mkItem 0 None 0) rest c) as Hdeq.
  destruct rest as [|r rest]; [by split|]. split.
  { intros He%bool_decide_eq_true_1. unfold heap.Len in He; simpl in He. lia. }
  intros _. destruct Hdeq as (x & rest' & Hdeq & Hp & _ & Hmin).
  destruct (Hmin Hok) as [_ Hle].
  exists x, (mkQueue (mkItem 0 None 0 :: rest') c).
  split_and!; [done..| |done|].
  - simpl. eapply Forall_impl; [done|]. intros y Hy. unfold item_le in Hy. lia.
  - apply Permutation_length in Hp. unfold Len, heap.Len; simpl in *. lia.
Qed.

Lemma renumbered_at_Enq t d p ops q :
  renumbered_at t (Enq d p :: ops) q =
    (if decide (count q = MaxUint64) then [t] else []) ++
    match Enqueue q d p with
    | Some q' => renumbered_at (S t) ops q'
    | None => []
    end.
Proof. done. Qed.

Lemma renumbered_at_Deq t ops q :
  renumbered_at t (Deq :: ops) q =
    match Dequeue q with
    | Some (_, q') => renumbered_at (S t) ops q'
    | None => []
    end.
Proof. done. Qed.

Lemma run_counter ops t s rest c :
  ok_state s rest c →
  c + Z.of_nat (length (enqueued ops)) ≤ MaxUint64 →
  Forall (λ x, 1 ≤ Order x ≤ c) rest → NoDup (Order <$> rest) →
  ∃ outs rest',
    run ops (mkQueue (s :: rest) c) =
      Some (outs, mkQueue (s :: rest')
                          (c + Z.of_nat (length (enqueued ops)))) ∧
    renumbered_at t ops (mkQueue (s :: rest) c) = [] ∧
    Forall (λ x, 1 ≤ Order x ≤ c + Z.of_nat (length (enqueued ops))) rest' ∧
    NoDup (Order <$> rest').
Proof.
  revert t rest c.
  induction ops as [|[d p|] ops IH]; intros t rest c [Hok Hc] Hmax Hall Hnd.
  - exists [], rest. simpl. rewrite Z.add_0_r. done.
  - change (enqueued (Enq d p :: ops)) with (d :: enqueued ops) in *.
    simpl length in *.
    destruct (Enqueue_spec s rest c d p Hok Hc)
      as (rest1 & c1 & base & Henq & Hok1 & Hc1 & Hp & Hbase & Hc').
    assert (c ≠ MaxUint64) as Hne by lia.
    unfold requeued in Hbase. rewrite decide_False in Hbase by done.
    subst base. rewrite (Hc' Hne) in *.
    destruct (IH (S t) rest1 (c + 1)) as (outs & rest' & Hrun & Hre & Hall' & Hnd').
    + done.
    + lia.
    + rewrite Hp. apply Forall_app. split; [|repeat constructor; simpl; lia].
      eapply Forall_impl; [done|]. intros x ?; simpl in *. lia.
    + rewrite Hp, fmap_app. apply NoDup_app. split_and!; [done| |].
      * intros o Ho ?%list_elem_of_singleton. subst o.
        apply list_elem_of_fmap in Ho as (x & Hx & Hin).
        rewrite Forall_forall in Hall. specialize (Hall _ Hin).
        simpl in Hx. lia.
      * apply NoDup_singleton.
    + exists outs, rest'.
      rewrite run_Enq, renumbered_at_Enq, Henq; cbn [count mbind option_bind].
      rewrite decide_False by done.
      replace (c + Z.of_nat (S (length (enqueued ops))))
        with (c + 1 + Z.of_nat (length (enqueued ops))) by lia.
      done.
  - change (enqueued (Deq :: ops)) with (enqueued ops) in *.
    pose proof (Dequeue_spec s rest c) as Hdeq. destruct rest as [|r rest].
    + destruct (IH (S t) [] c) as (outs & rest' & Hrun & Hre & Hall' & Hnd');
        [done..|].
      eexists _, rest'. rewrite run_Deq, renumbered_at_Deq, Hdeq.
      cbn [mbind option_bind]. by rewrite Hrun.
    + destruct Hdeq as (x & rest1 & Hdeq & Hp & _ & Hok1).
      destruct (Hok1 Hok) as [Hok' _].
      rewrite Hp in Hall. apply Forall_cons in Hall as [_ Hall].
      rewrite Hp, fmap_cons in Hnd. apply NoDup_cons in Hnd as [_ Hnd].
      destruct (IH (S t) rest1 c) as (outs & rest' & Hrun & Hre & Hall' & Hnd');
        [done..|].
      eexists _, rest'. rewrite run_Deq, renumbered_at_Deq, Hdeq.
      cbn [mbind option_bind]. by rewrite Hrun.
Qed.

(** X12. The sequence counter: on a new queue, as long as the Enqueue
    calls made number at most the largest [uint64], no call renumbers,
    [count] is the number of Enqueue calls made so far, and the queued
    items carry sequence numbers between 1 and [count], no two the
    same. *)
Theorem counter_counts_enqueues ops :
  Z.of_nat (length (enqueued ops)) ≤ MaxUint64 →
  ∃ outs q,
    run ops NewQueue = Some (outs, q) ∧
    renumbered_at 0 ops NewQueue = [] ∧
    count q = Z.of_nat (length (enqueued ops)) ∧
    Forall (λ x, 1 ≤ Order x ≤ count q) (tail (heap q)) ∧
    NoDup (Order <$> tail (heap q)).
Proof.
  intros Hmax.
  destruct (run_counter ops 0 (mkItem 0 None 0) [] 0)
    as (outs & rest & Hrun & Hre & Hall & Hnd);
    [by apply NewQueue_ok|lia|constructor|constructor|].
  by eexists outs, _.
Qed.

End queue_more.

(** * Further properties of DecorateChannel *)
Section channel_facts.
Context {D : Type}.
Implicit Types (st : channel.State D) (g : channel.goroutine).
Implicit Types (schedule : list channel.goroutine).

(** The queue of a state is well formed. *)
Definition queue_ok st : Prop :=
  ∃ s rest c, channel.pq st = mkQueue (s :: rest) c ∧ ok_state s rest c.

(** The payloads inside the adapter and out of it: those sent on
    [outChan], the one about to be sent, those queued, the one about to be
    enqueued, and those still to arrive on [inChan]. *)
Definition payloads st : list (option D) :=
  channel.outChan st ++
  match channel.emit st with channel.ESend d => [d] | _ => [] end ++
  (heap.Data <$> tail (heap (channel.pq st))) ++
  match channel.ingest st with
  | channel.IEnqueue task => [channel.Data task]
  | _ => []
  end ++
  (channel.Data <$> channel.inChan st).

Lemma step_payloads g st st' :
  queue_ok st → channel.step g st = Some st' →
  queue_ok st' ∧ payloads st' ≡ₚ payloads st.
Proof.
  intros (s & rest & c & Hq & Hok & Hc) Hstep.
  destruct st as [q lk inc ipc epc out]. simpl in Hq. subst q.
  unfold payloads. destruct g; simpl in Hstep.
  - destruct ipc as [|task|].
    + destruct inc as [|task tasks]; [done|]. simplify_eq/=.
      split; [by exists s, rest, c|]. done.
    + destruct lk; [done|].
      destruct (Enqueue_spec s rest c (channel.Data task)
                  (channel.Priority task) Hok Hc)
        as (rest1 & c1 & base & Henq & Hok1 & Hc1 & Hp & Hbase & _).
      rewrite Henq in Hstep. simplify_eq/=.
      split; [by exists s, rest1, c1|].
      rewrite Hp, fmap_app, (requeued_Data _ _ _ _ Hbase). simpl.
      by rewrite <-!app_assoc.
    + simplify_eq/=. split; [by exists s, rest, c|].
      by destruct epc.
  - destruct epc as [| | | | |d|].
    + destruct lk; simplify_eq/=. split; [by exists s, rest, c|]. done.
    + destruct (heap.Empty (s :: rest)); simplify_eq/=;
        (split; [by exists s, rest, c|]); done.
    + done.
    + destruct lk; simplify_eq/=. split; [by exists s, rest, c|]. done.
    + pose proof (Pop_frame s rest) as Hpop. destruct rest as [|r rest].
      * rewrite Hpop in Hstep. simplify_eq/=.
        split; [by exists s, [], c|]. done.
      * destruct Hpop as (x & rest' & Hpop & Hp & _ & Hok').
        rewrite Hpop in Hstep. simplify_eq/=.
        destruct (Hok' Hok) as [Hok1 _].
        split; [by exists s, rest', c|].
        change (out ++ [heap.Data x] ++ (heap.Data <$> rest') ++
                  match ipc with
                  | channel.IEnqueue task => [channel.Data task]
                  | _ => []
                  end ++ (channel.Data <$> inc)
                ≡ₚ out ++ (heap.Data <$> (r :: rest)) ++
                  match ipc with
                  | channel.IEnqueue task => [channel.Data task]
                  | _ => []
                  end ++ (channel.Data <$> inc)).
        by rewrite Hp.
    + simplify_eq/=. split; [by exists s, rest, c|].
      by rewrite <-!app_assoc.
    + done.
Qed.

(** X13. Nothing is lost or made up by the adapter: in every execution of
    the two goroutines, under any schedule and whether or not the emission
    goroutine ends up panicking, the payloads sent on [outChan], the one
    about to be sent, those queued, the one about to be enqueued and those
    still to arrive are, together, exactly the payloads of the tasks
    handed in. *)
Theorem adapter_conserves_payloads (tasks : list (channel.Task D))
    schedule st :
  channel.exec schedule (channel.start tasks) = Some st →
  payloads st ≡ₚ channel.Data <$> tasks.
Proof.
  assert (∀ st0, queue_ok st0 → channel.exec schedule st0 = Some st →
                 payloads st ≡ₚ payloads st0) as Hgen.
  { induction schedule as [|g schedule IH]; intros st0 Hok Hexec; simpl in *.
    { by simplify_eq. }
    destruct (channel.step g st0) as [st1|] eqn:Hstep; [|done]. simpl in *.
    destruct (step_payloads _ _ _ Hok Hstep) as [Hok1 Hp].
    by rewrite (IH st1 Hok1 Hexec). }
  intros Hexec. apply (Hgen (channel.start tasks)); [|done].
  exists (mkItem 0 None 0), [], 0. split; [done|]. by apply NewQueue_ok.
Qed.

(** The states an execution goes through. *)
Fixpoint visited schedule st : list (channel.State D) :=
  st ::
  match schedule with
  | [] => []
  | g :: schedule =>
      match channel.step g st with
      | Some st' => visited schedule st'
      | None => []
      end
  end.

(** What holds of a state as long as the emission goroutine has not been
    woken with the queue empty: it holds the lock where it reads the
    queue, the queue is not empty where it is about to pop, and it has not
    panicked. *)
Definition no_stale_wake st : Prop :=
  queue_ok st ∧
  (channel.emit st = channel.ECheck ∨ channel.emit st = channel.EPop →
     channel.locked st = true) ∧
  (channel.emit st = channel.EPop ∨ channel.emit st = channel.EWoken →
     Empty (channel.pq st) = false) ∧
  channel.emit st ≠ channel.EPanic.

Lemma Empty_cons (s r : Item D) (rest : list (Item D)) (c : Z) :
  Empty (mkQueue (s :: r :: rest) c) = false.
Proof.
  apply bool_decide_eq_false_2. unfold heap.Len; simpl. lia.
Qed.

Lemma step_no_stale_wake g st st' :
  no_stale_wake st → channel.step g st = Some st' →
  no_stale_wake st' ∨
  (channel.emit st' = channel.EWoken ∧ Empty (channel.pq st') = true).
Proof.
  intros ((s & rest & c & Hq & Hok & Hc) & Hlock & Hne & Hnp) Hstep.
  destruct st as [q lk inc ipc epc out]. simpl in *. subst q.
  destruct g; simpl in Hstep.
  - destruct ipc as [|task|].
    + destruct inc as [|task tasks]; [done|]. simplify_eq/=.
      left. split_and!; [by exists s, rest, c|done..].
    + destruct lk; [done|].
      destruct (Enqueue_spec s rest c (channel.Data task)
                  (channel.Priority task) Hok Hc)
        as (rest1 & c1 & base & Henq & Hok1 & Hc1 & Hp & Hbase & _).
      rewrite Henq in Hstep. simplify_eq/=.
      left. split_and!; [by exists s, rest1, c1|done| |done].
      intros _. destruct rest1 as [|r1 rest1]; [|apply Empty_cons].
      apply Permutation_length in Hp. rewrite length_app in Hp.
      simpl in Hp. lia.
    + simplify_eq/=.
      destruct epc as [| | | | |d|]; simpl;
        try (left; split_and!; [by exists s, rest, c|done..]).
      destruct (Empty (mkQueue (s :: rest) c)) eqn:He; [by right|].
      left. split_and!; [by exists s, rest, c| |done|done]. by intros [?|?].
  - destruct epc as [| | | | |d|].
    + destruct lk; simplify_eq/=.
      left. split_and!; [by exists s, rest, c|done| |done]. by intros [?|?].
    + destruct (heap.Empty (s :: rest)) eqn:He; simplify_eq/=; left.
      * split_and!; [by exists s, rest, c| | |done]; by intros [?|?].
      * split_and!; [by exists s, rest, c| |done..]. intros _. by apply Hlock; left.
    + done.
    + destruct lk; simplify_eq/=.
      left. split_and!; [by exists s, rest, c|done| |done].
      intros _. apply Hne. by right.
    + pose proof (Pop_frame s rest) as Hpop. destruct rest as [|r rest].
      { specialize (Hne (or_introl eq_refl)). done. }
      destruct Hpop as (x & rest' & Hpop & Hp & _ & Hok').
      rewrite Hpop in Hstep. simplify_eq/=.
      destruct (Hok' Hok) as [Hok1 _].
      left. split_and!; [by exists s, rest', c| | |done]; by intros [?|?].
    + simplify_eq/=.
      left. split_and!; [by exists s, rest, c| | |done]; by intros [?|?].
    + done.
Qed.

(** X14. The emission goroutine panics for one reason only: in every
    execution that ends with it panicked, it has at some point been woken
    from [cond.Wait()] with the queue empty. *)
Theorem panic_only_after_stale_wake (tasks : list (channel.Task D))
    schedule st :
  channel.exec schedule (channel.start tasks) = Some st →
  channel.emit st = channel.EPanic →
  ∃ st', st' ∈ visited schedule (channel.start tasks) ∧
         channel.emit st' = channel.EWoken ∧
         Empty (channel.pq st') = true.
Proof.
  assert (∀ st0, no_stale_wake st0 →
            channel.exec schedule st0 = Some st →
            no_stale_wake st ∨
            ∃ st', st' ∈ visited schedule st0 ∧
                   channel.emit st' = channel.EWoken ∧
                   Empty (channel.pq st') = true) as Hgen.
  { induction schedule as [|g schedule IH]; intros st0 Hok Hexec; simpl in *.
    { simplify_eq. by left. }
    destruct (channel.step g st0) as [st1|] eqn:Hstep; [|done]. simpl in *.
    destruct (step_no_stale_wake _ _ _ Hok Hstep) as [Hok1|[Hw He]].
    - destruct (IH st1 Hok1 Hexec) as [?|(st' & Hin & ?)]; [by left|].
      right. exists st'. split; [by right|done].
    - right. exists st1. split; [|done]. right.
      destruct schedule; left. }
  intros Hexec Hpanic.
  destruct (Hgen (channel.start tasks)) as [(_ & _ & _ & Hnp)|?];
    [|done|done|done].
  split_and!; [|by intros [?|?]|by intros [?|?]|done].
  exists (mkItem 0 None 0), [], 0. split; [done|]. by apply NewQueue_ok.
Qed.

End channel_facts.

(** * Instances *)

(** A heap of three items in heap order, with priorities 2, 5 and 3. *)
Definition heap_2_5_3 : ItemHeap nat :=
  [mkItem 0 None 0; mkItem 2 (Some 1%nat) 1; mkItem 5 (Some 2%nat) 2;
   mkItem 3 (Some 3%nat) 3].

Ltac three_item_heap_ok :=
  let i := fresh "i" in
  let Hi := fresh "Hi" in
  intros i Hi; unfold heap.Len in Hi; simpl in Hi;
  assert (i = 2 ∨ i = 3) as [-> | ->] by lia; reflexivity.


Lemma Swap_involutive_witness :
  ∃ h', Swap heap_2_5_3 1 3 = Some h' ∧
        length h' = length heap_2_5_3 ∧ Swap heap_2_5_3 3 1 = Some h' ∧
        Swap h' 1 3 = Some heap_2_5_3.
Proof.
  eexists. split; [reflexivity|].
  apply (Swap_involutive heap_2_5_3 1 3). reflexivity.
Defined.

Lemma parent_of_child_witness :
  (int64.parent 3 = parent 3 ∧ int64.leftChild 3 = leftChild 3 ∧
   int64.rightChild 3 = rightChild 3) ∧
  (int64.parent (int64.leftChild 3) = 3 ∧
   int64.parent (int64.rightChild 3) = 3 ∧
   (int64.leftChild (int64.parent 3) = 3 ∨
    int64.rightChild (int64.parent 3) = 3)) ∧
  (int64.leftChild (3 + 2 ^ 62) < 0 ∧ int64.rightChild (3 + 2 ^ 62) < 0 ∧
   int64.parent (int64.leftChild (3 + 2 ^ 62)) ≠ 3 + 2 ^ 62).
Proof. exact (parent_of_child 3 ltac:(lia)). Defined.

Lemma Pop_panics_iff_witness : ∃ x h', Pop heap_2_5_3 = Some (Some x, h').
Proof. apply (proj2 (proj2 (Pop_panics_iff heap_2_5_3))). reflexivity. Defined.

Lemma sift_keeps_ordered_witness :
  up heap_2_5_3 3 = Some heap_2_5_3 ∧ down heap_2_5_3 1 = Some heap_2_5_3.
Proof.
  split.
  - apply (sift_keeps_ordered heap_2_5_3 3); [three_item_heap_ok|].
    unfold heap.Len; simpl. lia.
  - apply (sift_keeps_ordered heap_2_5_3 1); [three_item_heap_ok|].
    unfold heap.Len; simpl. lia.
Defined.

Lemma Push_then_Pop_witness :
  ∃ h1 y rest2,
    Push heap_2_5_3 (ItemPtr (mkItem 1 (Some 4%nat) 4)) = Some h1 ∧
    Pop h1 = Some (Some y, mkItem 0 None 0 :: rest2) ∧
    y = mkItem 1 (Some 4%nat) 4 ∧
    tail heap_2_5_3 ++ [mkItem 1 (Some 4%nat) 4] ≡ₚ y :: rest2 ∧
    heap_ok (mkItem 0 None 0 :: rest2) ∧
    (tail heap_2_5_3 = [] → rest2 = []).
Proof.
  apply (Push_then_Pop (mkItem 0 None 0) (tail heap_2_5_3)
           (mkItem 1 (Some 4%nat) 4)).
  three_item_heap_ok.
Defined.

Lemma counter_counts_enqueues_witness :
  ∃ outs q,
    run [Enq (Some 1%nat) 4; Enq (Some 2%nat) 4; Deq; Enq (Some 3%nat) 1]
        NewQueue = Some (outs, q) ∧
    renumbered_at 0
      [Enq (Some 1%nat) 4; Enq (Some 2%nat) 4; Deq; Enq (Some 3%nat) 1]
      NewQueue = [] ∧
    count q = 3 ∧
    Forall (λ x, 1 ≤ Order x ≤ count q) (tail (heap q)) ∧
    NoDup (Order <$> tail (heap q)).
Proof.
  apply (counter_counts_enqueues
           [Enq (Some 1%nat) 4; Enq (Some 2%nat) 4; Deq; Enq (Some 3%nat) 1]).
  vm_compute. discriminate.
Defined.

(** Two tasks; the first is enqueued and then served. *)
Definition two_tasks : list (channel.Task nat) :=
  [channel.mkTask (Some 7%nat) 3; channel.mkTask (Some 8%nat) 1].

Definition serve_one : list channel.goroutine :=
  [channel.Ingest; channel.Ingest; channel.Ingest;
   channel.Emit; channel.Emit; channel.Emit; channel.Emit].

Lemma adapter_conserves_payloads_witness :
  ∃ st, channel.exec serve_one (channel.start two_tasks) = Some st ∧
        payloads st ≡ₚ channel.Data <$> two_tasks.
Proof.
  eexists. split; [vm_compute; reflexivity|].
  match goal with
  | |- payloads ?st ≡ₚ _ =>
      apply (adapter_conserves_payloads two_tasks serve_one st)
  end.
  vm_compute. reflexivity.
Defined.

(** One task, served before the signal meant for it arrives. *)
Definition late_signal : list channel.goroutine :=
  [channel.Ingest; channel.Ingest;
   channel.Emit; channel.Emit; channel.Emit; channel.Emit;
   channel.Emit; channel.Emit;
   channel.Ingest;
   channel.Emit; channel.Emit].

Lemma panic_only_after_stale_wake_witness :
  ∃ st, channel.exec late_signal (channel.start (take 1 two_tasks))
          = Some st ∧
        channel.emit st = channel.EPanic ∧
        ∃ st', st' ∈ visited late_signal (channel.start (take 1 two_tasks)) ∧
               channel.emit st' = channel.EWoken ∧
               Empty (channel.pq st') = true.
Proof.
  eexists. split; [vm_compute; reflexivity|]. split; [reflexivity|].
  eapply (panic_only_after_stale_wake (take 1 two_tasks) late_signal);
    vm_compute; reflexivity.
Defined.

(** * The sifting, and what a run of the queue accounts for *)
Section sift_results.
Context {D : Type}.
Implicit Types (h : ItemHeap D) (i j k c : Z).

Lemma Less_false_ordered h k :
  Less h k (parent k) = Some false → ordered_at h k.
Proof.
  intros (x & y & Hx & Hy & Hlt)%Less_Some x' y' Hx' Hy'. simplify_eq.
  by apply item_less_false.
Qed.

(** X15. [up] repairs a heap whose only fault is at slot [j]: if every
    other slot is in order with its parent and the children of [j] are in
    order with the parent of [j], then [up] at [j] does not panic and
    returns the same elements in heap order. *)
Theorem up_restores_order h j :
  j ≤ heap.Len h →
  (∀ k, 2 ≤ k ≤ heap.Len h → k ≠ j → Less h k (parent k) = Some false) →
  (2 ≤ j → ∀ c, 0 ≤ c ≤ heap.Len h → parent c = j →
     Less h c (parent j) = Some false) →
  ∃ h', up h j = Some h' ∧ h' ≡ₚ h ∧ heap_ok h'.
Proof.
  intros Hj H1 H2. destruct (up_spec h j Hj) as (h' & Hup & Hp & _ & Hinv).
  exists h'. split_and!; [done..|]. apply heap_ok_alt, Hinv. split.
  - intros k Hk Hne x y Hx Hy. pose proof (index_range _ _ _ Hx).
    by eapply (Less_false_ordered h k); [apply H1; lia|..].
  - intros Hj2 c x z Hc Hx Hz. pose proof (index_range _ _ _ Hx).
    destruct (proj1 (Less_Some _ _ _ _) (H2 Hj2 c ltac:(lia) Hc))
      as (x' & z' & ? & ? & ?). simplify_eq. by apply item_less_false.
Qed.


(** X17. Nothing is lost or served twice by the queue: after any sequence
    of calls on a new queue, the payloads handed back by the Dequeues
    that succeeded, together with the payloads still queued, are exactly
    the payloads handed to Enqueue. *)
Theorem queue_conserves_payloads (ops : list (op D)) :
  ∃ outs q,
    run ops NewQueue = Some (outs, q) ∧
    dequeued outs ++ (Data <$> tail (heap q)) ≡ₚ enqueued ops.
Proof.
  destruct (run_spec ops (mkItem 0 None 0) [] 0)
    as (outs & rest & c & Hrun & _ & Hacc); [by apply NewQueue_ok|].
  by exists outs, (mkQueue (mkItem 0 None 0 :: rest) c).
Qed.

End sift_results.

(** In heap order but for the last slot, whose item should be the root. *)
Definition heap_2_5_1 : ItemHeap nat :=
  [mkItem 0 None 0; mkItem 2 (Some 1%nat) 1; mkItem 5 (Some 2%nat) 2;
   mkItem 1 (Some 3%nat) 3].


Lemma up_restores_order_witness :
  ∃ h', up heap_2_5_1 3 = Some h' ∧ h' ≡ₚ heap_2_5_1 ∧ heap_ok h'.
Proof.
  apply (up_restores_order heap_2_5_1 3).
  - unfold heap.Len; simpl. lia.
  - intros k Hk Hne. unfold heap.Len in Hk; simpl in Hk.
    assert (k = 2) as -> by lia. reflexivity.
  - intros _ c Hc Hp. unfold heap.Len in Hc; simpl in Hc. zlia.
Defined.

